(** * MentiLive: the presenter's aggregation and the participant's submission

    A shallow embedding of the poll logic of
    [src/components/PollPresenter.tsx] and [src/components/PollParticipant.tsx].

    React state is modelled by explicit state passing: a handler is a
    function from the component state to the next component state, and a
    state updater passed to a setter runs once for each call of the setter.
    Strings are sequences of UTF-16 code units.  Plain JavaScript objects used
    as maps are modelled by the list of their own properties in creation
    order, with [Object.entries] enumerating them the way the language does
    (array-index keys first, in ascending numeric order, then the other keys
    in creation order).  Property names are assumed not to collide with the
    members of [Object.prototype]; the [responses] state, which is only ever
    read by key, is a finite map. *)

From Stdlib Require Import ZArith NArith Ascii String DecimalString Lia.
From stdpp Require Import gmap list sorting.

Local Open Scope Z_scope.

(** ** JavaScript values *)

Module JS.

(** A string is its sequence of UTF-16 code units. *)
Abbreviation jsstring := (list N).

Definition lit (s : string) : jsstring :=
  List.map N_of_ascii (list_ascii_of_string s).

(** [WhiteSpace] and [LineTerminator] code points, as stripped by
    [String.prototype.trim]. *)
Definition isWhiteSpace (c : N) : bool :=
  bool_decide (c ∈ [9; 10; 11; 12; 13; 32; 160; 5760; 8232; 8233; 8239; 8287;
                    12288; 65279]%N)
  || ((8192 <=? c)%N && (c <=? 8202)%N).

Fixpoint trimStart (s : jsstring) : jsstring :=
  match s with
  | [] => []
  | c :: s' => if isWhiteSpace c then trimStart s' else s
  end.

Definition trimEnd (s : jsstring) : jsstring := rev (trimStart (rev s)).

Definition trim (s : jsstring) : jsstring := trimEnd (trimStart s).

(** The values an answer can take: [selectedAnswer] is
    [string | number | null], [textAnswer] is a string.  The numbers are the
    integers that a [number] represents exactly. *)
Inductive jsvalue :=
| VNum (n : Z)
| VStr (s : jsstring).

#[global] Instance jsvalue_eq_dec : EqDecision jsvalue.
Proof. solve_decision. Defined.

(** [a === b] *)
Definition strict_eq (a b : jsvalue) : bool := bool_decide (a = b).

(** [Number.prototype.toString] on an integer. *)
Definition toString (n : Z) : jsstring :=
  lit (NilZero.string_of_int (Z.to_int n)).

(** [ToPropertyKey] *)
Definition toPropertyKey (v : jsvalue) : jsstring :=
  match v with
  | VNum n => toString n
  | VStr s => s
  end.

(** [!s] on a string: only the empty string is falsy. *)
Definition not_str (s : jsstring) : bool :=
  match s with [] => true | _ => false end.

(** *** Arrays *)

(** [arr.filter(r => r === x).length] *)
Definition count_eq (x : jsvalue) (arr : list jsvalue) : Z :=
  Z.of_nat (length (List.filter (fun r => strict_eq r x) arr)).

(** [Array.prototype.sort] with a comparator.  The sort is stable: [a] stays
    in front of a later [b] unless [cmp a b > 0].  For a consistent comparator
    every stable sort returns the list computed here. *)
Fixpoint sort_insert {A} (cmp : A -> A -> Z) (x : A) (l : list A) : list A :=
  match l with
  | [] => [x]
  | y :: l' => if cmp x y <=? 0 then x :: y :: l' else y :: sort_insert cmp x l'
  end.

Definition sort {A} (cmp : A -> A -> Z) (l : list A) : list A :=
  foldr (sort_insert cmp) [] l.

(** *** Objects used as maps *)

(** The own properties of an object, in creation order. *)
Abbreviation obj V := (list (jsstring * V)).

Fixpoint digits_value (acc : N) (s : jsstring) : option N :=
  match s with
  | [] => Some acc
  | c :: s' =>
      if ((48 <=? c) && (c <=? 57))%N
      then digits_value (10 * acc + (c - 48))%N s'
      else None
  end.

(** A key is an array index when it is the canonical decimal string of an
    integer between 0 and 2^32 - 2. *)
Definition arrayIndex (k : jsstring) : option N :=
  match digits_value 0 k with
  | Some n =>
      if bool_decide (n <= 4294967294)%N && bool_decide (toString (Z.of_N n) = k)
      then Some n else None
  | None => None
  end.

Section Obj.
Context {V : Type}.

(** [o[k]], [None] standing for [undefined]. *)
Fixpoint get (k : jsstring) (o : obj V) : option V :=
  match o with
  | [] => None
  | (k', v) :: o' => if bool_decide (k' = k) then Some v else get k o'
  end.

(** [o[k] = v]: an existing property keeps its place, a new one is created
    last. *)
Fixpoint set (k : jsstring) (v : V) (o : obj V) : obj V :=
  match o with
  | [] => [(k, v)]
  | (k', v') :: o' =>
      if bool_decide (k' = k) then (k', v) :: o' else (k', v') :: set k v o'
  end.

Definition index_of (p : jsstring * V) : Z :=
  match arrayIndex p.1 with Some n => Z.of_N n | None => 0 end.

(** [Object.entries(o)], in the order of [OrdinaryOwnPropertyKeys]: the keys
    that are array indices in ascending numeric order, then the other string
    keys in the order in which they were created. *)
Definition entries (o : obj V) : list (jsstring * V) :=
  sort (fun a b => index_of a - index_of b)
       (filter (fun p => is_Some (arrayIndex p.1)) o)
  ++ filter (fun p => arrayIndex p.1 = None) o.
End Obj.

End JS.

Import JS.

(** ** The presenter: [PollPresenter.tsx] *)

Module Presenter.

Inductive question_type_t := multiple_choice | word_cloud | rating | open_ended.

Record Question := mkQuestion {
  id : jsstring;
  question_type : question_type_t;
  question_text : jsstring;
  options : option (list jsstring);
  order_index : Z
}.

(** A row of the [responses] table, as fetched and as carried by the payload
    of an INSERT notification. *)
Record response_row := mkRow {
  question_id : jsstring;
  response_data : jsvalue
}.

(** The component state, one field per [useState]. *)
Record state := mkState {
  currentQuestionIndex : Z;
  responses : gmap jsstring (list jsvalue);
  participantCount : Z;
  questions : list Question;
  loading : bool
}.

(** [useState] initial values. *)
Definition initial : state :=
  {| currentQuestionIndex := 0; responses := ∅; participantCount := 0;
     questions := []; loading := true |}.

(** [questions[currentQuestionIndex]], [None] standing for [undefined]. *)
Definition currentQuestion (st : state) : option Question :=
  if currentQuestionIndex st <? 0 then None
  else questions st !! Z.to_nat (currentQuestionIndex st).

(** What a query answers: [error] or [data]. *)
Inductive error := PostgrestError (message : jsstring).

(** [fetchQuestions] once the query has answered ([inl error] or the rows
    ordered by [order_index], [inr data]): the rows become [questions], and
    [loading] ends either way. *)
Definition fetchQuestions (result : error + list Question) (st : state) : state :=
  {| currentQuestionIndex := currentQuestionIndex st;
     responses := responses st;
     participantCount := participantCount st;
     questions := match result with inl _ => questions st | inr data => data end;
     loading := false |}.

(** *** The realtime subscription *)

(** The channel filter [question_id=in.(questionIds)]; the effect installs no
    subscription while [questions] is empty. *)
Definition subscribed (st : state) (newResponse : response_row) : bool :=
  bool_decide (question_id newResponse ∈ id <$> questions st).

(** The INSERT callback: [setResponses(prev => ...)] followed by
    [setParticipantCount(prev => prev + 1)]. *)
Definition onInsert (newResponse : response_row) (st : state) : state :=
  let prev := responses st in
  let updated :=
    match prev !! question_id newResponse with
    | None => <[question_id newResponse := []]> prev
    | Some _ => prev
    end in
  let updated :=
    <[question_id newResponse :=
        default [] (updated !! question_id newResponse)
        ++ [response_data newResponse]]> updated in
  {| currentQuestionIndex := currentQuestionIndex st;
     responses := updated;
     participantCount := participantCount st + 1;
     questions := questions st;
     loading := loading st |}.

(** One notification on the channel. *)
Definition receive (newResponse : response_row) (st : state) : state :=
  if subscribed st newResponse then onInsert newResponse st else st.

(** *** Fetching the existing responses *)

Definition groupResponses (data : list response_row) : gmap jsstring (list jsvalue) :=
  foldl (fun groupedResponses response =>
           let groupedResponses :=
             match groupedResponses !! question_id response with
             | None => <[question_id response := []]> groupedResponses
             | Some _ => groupedResponses
             end in
           <[question_id response :=
               default [] (groupedResponses !! question_id response)
               ++ [response_data response]]> groupedResponses)
        ∅ data.

(** [fetchResponses] once the query has answered, [inl error] or [inr data];
    the effect runs it when [questions] is not empty. *)
Definition fetchResponses (result : error + list response_row) (st : state) : state :=
  match result with
  | inl _ => st
  | inr data =>
      {| currentQuestionIndex := currentQuestionIndex st;
         responses := groupResponses data;
         participantCount := Z.of_nat (length data);
         questions := questions st;
         loading := loading st |}
  end.

(** *** Navigation *)

(** The calls of state setters that a navigation handler makes. *)
Inductive update :=
| SetCurrentQuestionIndex (i : Z).

Definition apply_update (st : state) (u : update) : state :=
  match u with
  | SetCurrentQuestionIndex i =>
      {| currentQuestionIndex := i;
         responses := responses st;
         participantCount := participantCount st;
         questions := questions st;
         loading := loading st |}
  end.

(** The state after a handler has run. *)
Definition after (handler : state -> list update) (st : state) : state :=
  foldl apply_update st (handler st).

Definition nextQuestion (st : state) : list update :=
  if currentQuestionIndex st <? Z.of_nat (length (questions st)) - 1
  then [SetCurrentQuestionIndex (currentQuestionIndex st + 1)]
  else [].

Definition prevQuestion (st : state) : list update :=
  if currentQuestionIndex st >? 0
  then [SetCurrentQuestionIndex (currentQuestionIndex st - 1)]
  else [].

(** *** Aggregates *)

Record chart_entry := mkChart { name : jsstring; value : Z }.
Record word_entry := mkWord { word : jsstring; count : Z }.

(** [responses[q.id] || []] *)
Definition responsesOf (st : state) (q : Question) : list jsvalue :=
  default [] (responses st !! id q).

Definition getChartData (st : state) : list chart_entry :=
  match currentQuestion st with
  | None => []
  | Some q =>
      let questionResponses := responsesOf st q in
      match question_type q with
      | multiple_choice =>
          let counts :=
            foldl (fun counts option =>
                     set option (count_eq (VStr option) questionResponses) counts)
                  [] (default [] (options q)) in
          (fun p => mkChart p.1 p.2) <$> entries counts
      | rating =>
          let counts :=
            foldl (fun counts i =>
                     set (toString i) (count_eq (VNum i) questionResponses) counts)
                  [] (seqZ 1 10) in
          (fun p => mkChart p.1 p.2) <$> entries counts
      | _ => []
      end
  end.

(** [(counts[word] || 0) + 1] *)
Definition increment (c : option Z) : Z :=
  match c with
  | Some c => (if bool_decide (c = 0) then 0 else c) + 1
  | None => 0 + 1
  end.

Definition countWords (questionResponses : list jsvalue) : obj Z :=
  foldl (fun counts word =>
           let k := toPropertyKey word in set k (increment (get k counts)) counts)
        [] questionResponses.

Definition wordCloud (questionResponses : list jsvalue) : list word_entry :=
  take 10
    (sort (fun a b => count b - count a)
          ((fun p => mkWord p.1 p.2) <$> entries (countWords questionResponses))).

Definition getWordCloudData (st : state) : list word_entry :=
  match currentQuestion st with
  | None => []
  | Some q => wordCloud (responsesOf st q)
  end.

(** [responses[currentQuestion.id] || []]: the list rendered for an
    [open_ended] question, whose length is the "responses received" figure. *)
Definition questionResponses (st : state) : list jsvalue :=
  match currentQuestion st with
  | None => []
  | Some q => responsesOf st q
  end.

(** *** What is rendered *)

Inductive screen :=
| LoadingScreen
| NoQuestionsScreen
| PresentationScreen (q : Question).

(** The three returns of the component; [None] is the [TypeError] of reading
    [question_type] on an [undefined] current question. *)
Definition render (st : state) : option screen :=
  if loading st then Some LoadingScreen
  else if bool_decide (length (questions st) = 0%nat) then Some NoQuestionsScreen
  else PresentationScreen <$> currentQuestion st.

(** The [disabled] attributes of the Previous and Next buttons. *)
Definition prevDisabled (st : state) : bool :=
  bool_decide (currentQuestionIndex st = 0).

Definition nextDisabled (st : state) : bool :=
  bool_decide (currentQuestionIndex st = Z.of_nat (length (questions st)) - 1).

End Presenter.

(** ** The participant: [PollParticipant.tsx] *)

Module Participant.

Inductive mock_type := MultipleChoice | Scale | WordCloud | OpenText.

Record mock_question := mkMock {
  id : jsstring;
  type : mock_type;
  title : jsstring;
  options : option (list jsstring);
  scaleMin : option Z;
  scaleMax : option Z
}.

Definition mockQuestions : list mock_question :=
  [ mkMock (lit "1") MultipleChoice
      (lit "What's your favorite programming language?")
      (Some [lit "JavaScript"; lit "Python"; lit "Java"; lit "C++"; lit "Go"])
      None None;
    mkMock (lit "2") Scale
      (lit "How satisfied are you with this presentation?")
      None (Some 1) (Some 10);
    mkMock (lit "3") WordCloud
      (lit "Describe this session in one word:") None None None;
    mkMock (lit "4") OpenText
      (lit "Any suggestions for improvement?") None None None ].

(** The component state.  The index is the [currentQuestion] that the
    handlers and [setCurrentQuestion] work on, and the code is the [pollCode]
    that is rendered; their [useState] lines spell the names
    [CurrentlQuestion] and [pollcode]. *)
Record state := mkState {
  pollCode : jsstring;
  isJoined : bool;
  currentQuestion : Z;
  selectedAnswer : option jsvalue;
  textAnswer : jsstring;
  hasAnswered : bool
}.

Inductive variant_t := Default | Destructive.

Record toast_t := mkToast {
  toast_title : jsstring;
  description : jsstring;
  variant : variant_t
}.

(** What a handler did besides updating the state: the toasts it showed and
    the [setTimeout] callbacks it scheduled, each with its delay and the
    [currentQuestion] its closure captured. *)
Record effects := mkEffects {
  toasts : list toast_t;
  timeouts : list (Z * Z)
}.

(** [mockQuestions[i]] *)
Definition questionAt (i : Z) : option mock_question :=
  if i <? 0 then None else mockQuestions !! Z.to_nat i.

(** [submitAnswer]; [None] is the [TypeError] of reading [type] on
    [undefined]. *)
Definition submitAnswer (st : state) : option (state * effects) :=
  match questionAt (currentQuestion st) with
  | None => None
  | Some question =>
      let required (msg : jsstring) :=
        Some (st, mkEffects [mkToast (lit "Answer Required") msg Destructive] []) in
      let submitted :=
        Some ({| pollCode := pollCode st; isJoined := isJoined st;
                 currentQuestion := currentQuestion st;
                 selectedAnswer := selectedAnswer st;
                 textAnswer := textAnswer st;
                 hasAnswered := true |},
              mkEffects
                [mkToast (lit "Answer Submitted!")
                         (lit "Thank you for your response") Default]
                [(2000, currentQuestion st)]) in
      match type question with
      | OpenText | WordCloud =>
          if not_str (trim (textAnswer st))
          then required (lit "Please provide an answer")
          else submitted
      | _ =>
          match selectedAnswer st with
          | None => required (lit "Please select an answer")
          | Some _ => submitted
          end
      end
  end.

(** The callback scheduled by [submitAnswer], run on the state of the time. *)
Definition onTimeout (captured : Z) (st : state) : state :=
  if captured <? Z.of_nat (length mockQuestions) - 1
  then {| pollCode := pollCode st; isJoined := isJoined st;
          currentQuestion := captured + 1;
          selectedAnswer := None;
          textAnswer := [];
          hasAnswered := false |}
  else st.

(** [useState] initial values. *)
Definition initial : state :=
  {| pollCode := []; isJoined := false; currentQuestion := 0;
     selectedAnswer := None; textAnswer := []; hasAnswered := false |}.

(** The setters called by the inputs; the code input passes its value
    through [toUpperCase] before it calls [setPollCode]. *)
Definition setPollCode (code : jsstring) (st : state) : state :=
  {| pollCode := code; isJoined := isJoined st;
     currentQuestion := currentQuestion st; selectedAnswer := selectedAnswer st;
     textAnswer := textAnswer st; hasAnswered := hasAnswered st |}.

Definition setSelectedAnswer (answer : option jsvalue) (st : state) : state :=
  {| pollCode := pollCode st; isJoined := isJoined st;
     currentQuestion := currentQuestion st; selectedAnswer := answer;
     textAnswer := textAnswer st; hasAnswered := hasAnswered st |}.

Definition setTextAnswer (text : jsstring) (st : state) : state :=
  {| pollCode := pollCode st; isJoined := isJoined st;
     currentQuestion := currentQuestion st; selectedAnswer := selectedAnswer st;
     textAnswer := text; hasAnswered := hasAnswered st |}.

Definition joinPoll (st : state) : state * effects :=
  if (Z.of_nat (length (pollCode st)) <? 4)
  then (st, mkEffects [mkToast (lit "Invalid Code")
                               (lit "Please enter a valid poll code")
                               Destructive] [])
  else ({| pollCode := pollCode st; isJoined := true;
           currentQuestion := currentQuestion st;
           selectedAnswer := selectedAnswer st;
           textAnswer := textAnswer st; hasAnswered := hasAnswered st |},
        mkEffects [mkToast (lit "Joined successfully!")
                           (lit "You've joined the live poll!") Default] []).

(** The controls on screen. *)
Inductive control :=
| CodeInput
| JoinButton
| OptionButton (option : jsstring)
| ScaleButton (num : Z)
| AnswerInput
| SubmitButton.

#[global] Instance control_eq_dec : EqDecision control.
Proof. solve_decision. Defined.

(** The controls that the component renders: the join form, nothing once an
    answer is in, or the inputs of the question with the submit button.
    [None] is the [TypeError] of reading [type] on [undefined]. *)
Definition controls (st : state) : option (list control) :=
  if negb (isJoined st) then Some [CodeInput; JoinButton]
  else if hasAnswered st then Some []
  else
    match questionAt (currentQuestion st) with
    | None => None
    | Some question =>
        Some ((match type question with
               | MultipleChoice => OptionButton <$> default [] (options question)
               | Scale => ScaleButton <$> seqZ 1 10
               | WordCloud | OpenText => [AnswerInput]
               end) ++ [SubmitButton])
    end.

End Participant.

(** ** The creator: [PresentationCreator.tsx] *)

Module Creator.

Record Question := mkQuestion {
  id : jsstring;
  type : Presenter.question_type_t;
  question_text : jsstring;
  options : option (list jsstring);
  order_index : Z
}.

(** [Partial<Question>] *)
Record PartialQuestion := mkPartial {
  p_id : option jsstring;
  p_type : option Presenter.question_type_t;
  p_question_text : option jsstring;
  p_options : option (list jsstring);
  p_order_index : option Z
}.

(** [{}] *)
Definition empty : PartialQuestion := mkPartial None None None None None.

Record state := mkState {
  presentationTitle : jsstring;
  questions : list Question;
  newQuestion : PartialQuestion;
  isPresenting : bool;
  pollCode : jsstring;
  presentationId : jsstring;
  loading : bool
}.

(** [useState] initial values. *)
Definition initial : state :=
  {| presentationTitle := []; questions := []; newQuestion := empty;
     isPresenting := false; pollCode := []; presentationId := [];
     loading := false |}.

(** [s.split('\n')] and [a.join('\n')], for a one-unit separator. *)
Fixpoint split (sep : N) (s : jsstring) : list jsstring :=
  match s with
  | [] => [[]]
  | c :: s' =>
      if bool_decide (c = sep) then [] :: split sep s'
      else match split sep s' with
           | [] => [[c]]
           | line :: lines => (c :: line) :: lines
           end
  end.

Fixpoint join (sep : N) (a : list jsstring) : jsstring :=
  match a with
  | [] => []
  | [x] => x
  | x :: a' => x ++ sep :: join sep a'
  end.

(** The value shown in the options box:
    [newQuestion.options?.join('\n') || ""]. *)
Definition optionsText (q : PartialQuestion) : jsstring :=
  match p_options q with
  | None => []
  | Some a => join 10 a
  end.

(** The parsing of the options box:
    [value.split('\n').filter(o => o.trim())]. *)
Definition parseOptions (value : jsstring) : list jsstring :=
  filter (fun o => not_str (trim o) = false) (split 10 value).

Definition setNewQuestion (q : PartialQuestion) (st : state) : state :=
  {| presentationTitle := presentationTitle st; questions := questions st;
     newQuestion := q; isPresenting := isPresenting st; pollCode := pollCode st;
     presentationId := presentationId st; loading := loading st |}.

Definition setQuestions (qs : list Question) (st : state) : state :=
  {| presentationTitle := presentationTitle st; questions := qs;
     newQuestion := newQuestion st; isPresenting := isPresenting st;
     pollCode := pollCode st; presentationId := presentationId st;
     loading := loading st |}.

(** The three [onChange] handlers of the new-question form. *)
Definition onTypeChange (value : Presenter.question_type_t) (st : state) : state :=
  let q := newQuestion st in
  setNewQuestion (mkPartial (p_id q) (Some value) (p_question_text q)
                            (p_options q) (p_order_index q)) st.

Definition onTextChange (value : jsstring) (st : state) : state :=
  let q := newQuestion st in
  setNewQuestion (mkPartial (p_id q) (p_type q) (Some value)
                            (p_options q) (p_order_index q)) st.

Definition onOptionsChange (value : jsstring) (st : state) : state :=
  let q := newQuestion st in
  setNewQuestion (mkPartial (p_id q) (p_type q) (p_question_text q)
                            (Some (parseOptions value)) (p_order_index q)) st.

(** [addQuestion], at the time [now] that [Date.now()] returns. *)
Definition addQuestion (now : Z) (st : state) : state * list Participant.toast_t :=
  match p_question_text (newQuestion st), p_type (newQuestion st) with
  | Some (c :: text), Some type =>
      let question :=
        {| id := toString now;
           type := type;
           question_text := c :: text;
           options :=
             match type with
             | Presenter.multiple_choice =>
                 Some (default [] (p_options (newQuestion st)))
             | _ => None
             end;
           order_index := Z.of_nat (length (questions st)) |} in
      (setNewQuestion empty (setQuestions (questions st ++ [question]) st),
       [Participant.mkToast
          (lit "Question Added")
          (lit "Your question has been added to the presentation.")
          Participant.Default])
  | _, _ =>
      (st, [Participant.mkToast
              (lit "Missing Information")
              (lit "Please provide a question text and select a type.")
              Participant.Destructive])
  end.

Definition removeQuestion (id' : jsstring) (st : state) : state :=
  setQuestions (filter (fun q => id q <> id') (questions st)) st.

(** *** Starting the presentation *)

(** The signed-in user of [useAuth]; [user_id] is its [id]. *)
Record User := mkUser { user_id : jsstring }.

(** The inserted row that the store returns; [row_id] is its [id] and
    [owner] its [user_id] column. *)
Record presentation_row := mkPresentation {
  row_id : jsstring;
  title : jsstring;
  owner : jsstring;
  access_code : jsstring;
  is_active : bool
}.

Record question_row := mkQuestionRow {
  presentation_id : jsstring;
  row_question_text : jsstring;
  question_type : Presenter.question_type_t;
  row_options : option jsstring;
  row_order_index : Z
}.

(** The requests sent to the store. *)
Inductive request :=
| GenerateAccessCode
| InsertPresentation (title user_id access_code : jsstring) (is_active : bool)
| InsertQuestions (rows : list question_row).

(** [questionsToInsert]; [stringify] is [JSON.stringify]. *)
Definition questionsToInsert (stringify : list jsstring -> jsstring)
    (presentation : presentation_row) (qs : list Question) : list question_row :=
  (fun q => {| presentation_id := row_id presentation;
               row_question_text := question_text q;
               question_type := type q;
               row_options := stringify <$> options q;
               row_order_index := order_index q |}) <$> qs.

Definition setLoading (b : bool) (st : state) : state :=
  {| presentationTitle := presentationTitle st; questions := questions st;
     newQuestion := newQuestion st; isPresenting := isPresenting st;
     pollCode := pollCode st; presentationId := presentationId st;
     loading := b |}.

Definition failed (e : Presenter.error) : Participant.toast_t :=
  match e with
  | Presenter.PostgrestError message =>
      Participant.mkToast (lit "Error Starting Presentation") message
                          Participant.Destructive
  end.

(** [startPresentation], given what the store answers to each request that
    is reached: the access code, the inserted presentation, and the error of
    inserting the questions if there is one.  The result is the state at the
    end when no other handler runs in between, the toasts shown and the
    requests sent, in order. *)
Definition startPresentation (stringify : list jsstring -> jsstring)
    (user : option User)
    (code : Presenter.error + jsstring)
    (inserted : Presenter.error + presentation_row)
    (questionsError : option Presenter.error)
    (st : state) : state * list Participant.toast_t * list request :=
  if bool_decide (length (questions st) = 0%nat) then
    (st, [Participant.mkToast
            (lit "No Questions")
            (lit "Please add at least one question before starting the presentation.")
            Participant.Destructive], [])
  else
    match user with
    | None =>
        (st, [Participant.mkToast
                (lit "Authentication Required")
                (lit "Please sign in to start a presentation.")
                Participant.Destructive], [])
    | Some user =>
        match code with
        | inl codeError =>
            (setLoading false st, [failed codeError], [GenerateAccessCode])
        | inr codeData =>
            let insert :=
              InsertPresentation
                (match presentationTitle st with
                 | [] => lit "Untitled Presentation"
                 | t => t
                 end)
                (user_id user) codeData true in
            match inserted with
            | inl presentationError =>
                (setLoading false st, [failed presentationError],
                 [GenerateAccessCode; insert])
            | inr presentation =>
                let requests :=
                  [GenerateAccessCode; insert;
                   InsertQuestions
                     (questionsToInsert stringify presentation (questions st))] in
                match questionsError with
                | Some questionsError =>
                    (setLoading false st, [failed questionsError], requests)
                | None =>
                    ({| presentationTitle := presentationTitle st;
                        questions := questions st;
                        newQuestion := newQuestion st;
                        isPresenting := true;
                        pollCode := codeData;
                        presentationId := row_id presentation;
                        loading := false |},
                     [Participant.mkToast
                        (lit "Presentation Started!")
                        (lit "Share code " ++ codeData ++ lit " with your audience")
                        Participant.Default],
                     requests)
                end
            end
        end
    end.

End Creator.

Import Presenter.

(** ** Vocabulary of the statements *)

(** [a] stands in front of [b] in [l]. *)
Definition before {A} (a b : A) (l : list A) : Prop := [a; b] `sublist_of` l.

(** The order of [Object.entries]: array indices in ascending order, then
    the other keys in creation order. *)
Definition entries_order {V} (o : obj V) (p q : jsstring * V) : Prop :=
  match arrayIndex p.1, arrayIndex q.1 with
  | Some m, Some n => (m < n)%N
  | Some _, None => True
  | None, Some _ => False
  | None, None => before p q o
  end.

(** The position at which a token is first seen in a sequence. *)
Fixpoint firstSeen (k : jsstring) (ks : list jsstring) : option nat :=
  match ks with
  | [] => None
  | k' :: ks' => if bool_decide (k' = k) then Some 0%nat else S <$> firstSeen k ks'
  end.

Definition seen_before (ks : list jsstring) (a b : jsstring) : Prop :=
  exists i j, firstSeen a ks = Some i /\ firstSeen b ks = Some j /\ (i < j)%nat.

(** The number of times a token occurs in a sequence. *)
Definition occurrences (k : jsstring) (ks : list jsstring) : Z :=
  Z.of_nat (length (filter (eq k) ks)).

(** The order in which the distinct tokens of a sequence are enumerated. *)
Definition enumerated_before (ks : list jsstring) (a b : jsstring) : Prop :=
  match arrayIndex a, arrayIndex b with
  | Some m, Some n => (m < n)%N
  | Some _, None => True
  | None, Some _ => False
  | None, None => seen_before ks a b
  end.

(** The presenter after a sequence of notifications. *)
Definition run (events : list response_row) (st : state) : state :=
  foldl (fun st e => receive e st) st events.

(** A presenter that has loaded its questions. *)
Definition loaded (qs : list Question) : state :=
  fetchQuestions (inr qs) initial.

(** Appending a value to the responses stored for a question. *)
Definition push (m : gmap jsstring (list jsvalue)) (k : jsstring) (v : jsvalue)
  : gmap jsstring (list jsvalue) :=
  <[k := default [] (m !! k) ++ [v]]> m.

(** The number of response records held for all questions together. *)
Definition total_responses (m : gmap jsstring (list jsvalue)) : Z :=
  map_fold (fun _ l n => Z.of_nat (length l) + n) 0 m.

(** The sum of the counts of a chart. *)
Definition sum_values (chart : list chart_entry) : Z :=
  foldr (fun e acc => value e + acc) 0 chart.

(** The sum of a function over a list of keys. *)
Definition sum_with (f : jsstring -> Z) (ks : list jsstring) : Z :=
  foldr (fun k acc => f k + acc) 0 ks.

(** Ties of a word cloud broken by first-seen order alone. *)
Definition first_seen_ties (st : state) : Prop :=
  forall i j a b,
    (i < j)%nat ->
    getWordCloudData st !! i = Some a -> getWordCloudData st !! j = Some b ->
    count a = count b ->
    seen_before (toPropertyKey <$> questionResponses st) (word a) (word b).

(** A submission that is turned down: nothing is kept and an error is shown. *)
Definition rejected (st : Participant.state)
    (r : option (Participant.state * Participant.effects)) : Prop :=
  exists t, r = Some (st, Participant.mkEffects [t] [])
            /\ Participant.variant t = Participant.Destructive.

(** A notification for a question that is not the current one is turned
    down, leaving the presenter as it was. *)
Definition rejects_stale (st : state) (ev : response_row) : Prop :=
  forall q, currentQuestion st = Some q -> question_id ev <> id q ->
            receive ev st = st.

(** The responses kept for the current question never exceed [max]. *)
Definition retains_at_most (max : nat) (st : state) : Prop :=
  forall events, (length (questionResponses (run events st)) <= max)%nat.

(** *** Sessions used in the examples *)

Definition a_word_cloud : Question :=
  mkQuestion (lit "q1") word_cloud (lit "Describe this session in one word") None 0.

Definition a_choice : Question :=
  mkQuestion (lit "q2") multiple_choice (lit "Favourite language?")
             (Some [lit "A"; lit "B"]) 1.

Definition a_rating : Question :=
  mkQuestion (lit "q3") rating (lit "How satisfied are you?") None 0.

Definition an_open_ended : Question :=
  mkQuestion (lit "q4") open_ended (lit "Any suggestions?") None 0.

Definition answer (q : Question) (v : jsvalue) : response_row := mkRow (id q) v.

Definition fun_session : state :=
  run [answer a_word_cloud (VStr (lit "Fun"));
       answer a_word_cloud (VStr (lit "fun"));
       answer a_word_cloud (VStr (lit "great"))]
      (loaded [a_word_cloud]).

Definition b1_session : state :=
  run [answer a_word_cloud (VStr (lit "b"));
       answer a_word_cloud (VStr (lit "1"))]
      (loaded [a_word_cloud]).

Definition two_questions : state := loaded [a_word_cloud; a_choice].

Definition rating_session : state :=
  run [answer a_rating (VNum 7); answer a_rating (VNum 3); answer a_rating (VNum 7)]
      (loaded [a_rating]).

Definition choice_session : state :=
  run [answer a_choice (VStr (lit "B")); answer a_choice (VStr (lit "A"));
       answer a_choice (VStr (lit "B"))]
      (loaded [a_choice]).

Definition open_session : state := loaded [an_open_ended].

(** A participant on the scale question who has selected 11. *)
Definition scale_eleven : Participant.state :=
  Participant.mkState (lit "ABCD") true 1 (Some (VNum 11)) [] false.

(** A participant on the word-cloud question who typed blanks. *)
Definition blank_word : Participant.state :=
  Participant.mkState (lit "ABCD") true 2 None (lit "   ") false.

(** *** The components as machines *)

(** What can happen to a mounted presenter. *)
Inductive presenter_event :=
| ClickNext
| ClickPrev
| Notified (newResponse : response_row)
| ResponsesFetched (result : error + list response_row).

Definition presenter_step (st : state) (e : presenter_event) : state :=
  match e with
  | ClickNext => after nextQuestion st
  | ClickPrev => after prevQuestion st
  | Notified newResponse => receive newResponse st
  | ResponsesFetched result => fetchResponses result st
  end.

(** The presenter once its questions query has answered, after some events. *)
Definition presenter_after (result : error + list Question)
    (events : list presenter_event) : state :=
  foldl presenter_step (fetchQuestions result initial) events.

(** A participant with the timers that are still to fire, each with the
    [currentQuestion] that its closure captured. *)
Record world := mkWorld {
  ui : Participant.state;
  pending : list Z
}.

Inductive participant_event :=
| TypeCode (code : jsstring)
| ClickJoin
| ClickOption (option : jsstring)
| ClickScale (num : Z)
| TypeAnswer (text : jsstring)
| ClickSubmit
| TimerFires (i : nat).

(** The control that an event needs on screen. *)
Definition control_of (e : participant_event) : option Participant.control :=
  match e with
  | TypeCode _ => Some Participant.CodeInput
  | ClickJoin => Some Participant.JoinButton
  | ClickOption option => Some (Participant.OptionButton option)
  | ClickScale num => Some (Participant.ScaleButton num)
  | TypeAnswer _ => Some Participant.AnswerInput
  | ClickSubmit => Some Participant.SubmitButton
  | TimerFires _ => None
  end.

(** One event; [None] when rendering or a handler throws.  An event whose
    control is not on screen, and a timer that is not pending, do nothing. *)
Definition participant_step (w : world) (e : participant_event) : option world :=
  match Participant.controls (ui w) with
  | None => None
  | Some cs =>
      match e with
      | TimerFires i =>
          match pending w !! i with
          | Some captured =>
              Some (mkWorld (Participant.onTimeout captured (ui w))
                            (delete i (pending w)))
          | None => Some w
          end
      | _ =>
          if bool_decide (control_of e ∈ Some <$> cs) then
            match e with
            | TypeCode code =>
                Some (mkWorld (Participant.setPollCode code (ui w)) (pending w))
            | ClickJoin =>
                Some (mkWorld (Participant.joinPoll (ui w)).1 (pending w))
            | ClickOption option =>
                Some (mkWorld (Participant.setSelectedAnswer (Some (VStr option)) (ui w))
                              (pending w))
            | ClickScale num =>
                Some (mkWorld (Participant.setSelectedAnswer (Some (VNum num)) (ui w))
                              (pending w))
            | TypeAnswer text =>
                Some (mkWorld (Participant.setTextAnswer text (ui w)) (pending w))
            | ClickSubmit =>
                match Participant.submitAnswer (ui w) with
                | None => None
                | Some (st, fx) =>
                    Some (mkWorld st (pending w ++ (Participant.timeouts fx).*2))
                end
            | TimerFires _ => Some w
            end
          else Some w
      end
  end.

Fixpoint participant_steps (w : world) (events : list participant_event)
    : option world :=
  match events with
  | [] => Some w
  | e :: events =>
      match participant_step w e with
      | None => None
      | Some w' => participant_steps w' events
      end
  end.

Definition participant_start : world := mkWorld Participant.initial [].

(** The participant has given the answer that the question asks for. *)
Definition answered (st : Participant.state) (question : Participant.mock_question)
    : Prop :=
  match Participant.type question with
  | Participant.OpenText | Participant.WordCloud =>
      ~ Forall (fun c => isWhiteSpace c = true) (Participant.textAnswer st)
  | _ => Participant.selectedAnswer st <> None
  end.

(** What the presenter does in the creator's form. *)
Inductive creator_action :=
| ChooseType (value : question_type_t)
| TypeText (value : jsstring)
| TypeOptions (value : jsstring)
| ClickAdd (now : Z)
| ClickRemove (id : jsstring).

Definition creator_step (st : Creator.state) (a : creator_action) : Creator.state :=
  match a with
  | ChooseType value => Creator.onTypeChange value st
  | TypeText value => Creator.onTextChange value st
  | TypeOptions value => Creator.onOptionsChange value st
  | ClickAdd now => (Creator.addQuestion now st).1
  | ClickRemove id => Creator.removeQuestion id st
  end.

Definition creator_after (actions : list creator_action) : Creator.state :=
  foldl creator_step Creator.initial actions.

(** An option that the options box can produce: not blank, on one line. *)
Definition option_line (o : jsstring) : Prop :=
  trim o <> [] /\ 10%N ∉ o.

(** A question as the form makes them. *)
Definition well_formed (q : Creator.Question) : Prop :=
  Creator.question_text q <> []
  /\ (is_Some (Creator.options q) <-> Creator.type q = multiple_choice)
  /\ (forall a o, Creator.options q = Some a -> o ∈ a -> option_line o).

(** What holds of a participant at all times: the index is on a question, and
    a timer is pending only for the current question, once it is answered. *)
Definition participant_inv (w : world) : Prop :=
  0 <= Participant.currentQuestion (ui w) <= 3
  /\ (pending w = []
      \/ (pending w = [Participant.currentQuestion (ui w)]
          /\ Participant.hasAnswered (ui w) = true
          /\ Participant.isJoined (ui w) = true)).

(** What holds of the creator's form at all times. *)
Definition creator_inv (st : Creator.state) : Prop :=
  (forall q, q ∈ Creator.questions st -> well_formed q)
  /\ (forall a o, Creator.p_options (Creator.newQuestion st) = Some a ->
                  o ∈ a -> option_line o)
  /\ (forall i q, Creator.questions st !! i = Some q ->
                  Z.of_nat i <= Creator.order_index q).

(** No question is removed. *)
Definition adds_only (actions : list creator_action) : Prop :=
  forall id, ClickRemove id ∉ actions.

(** A creator who adds a multiple-choice question with two options. *)
Definition sample_actions : list creator_action :=
  [ChooseType multiple_choice; TypeText (lit "Favourite language?");
   TypeOptions (lit "A" ++ 10%N :: lit "B"); ClickAdd 1700000000000;
   TypeOptions (lit "C")].

(** The number of distinct tokens of a sequence. *)
Definition distinct (ks : list jsstring) : nat := length (remove_dups ks).

(** The sum of the counts of a word cloud. *)
Definition sum_counts (cloud : list word_entry) : Z :=
  foldr (fun e acc => count e + acc) 0 cloud.

(** ** Facts about the JavaScript model *)

Section ListFacts.
Context {A : Type}.

Lemma sublist_filter_mono (P : A -> Prop) `{!forall x, Decision (P x)} (l1 l2 : list A) :
  l1 `sublist_of` l2 -> filter P l1 `sublist_of` filter P l2.
Proof.
  induction 1 as [|x l1 l2 _ IH|x l1 l2 _ IH]; [constructor| |].
  - rewrite !filter_cons. destruct (decide (P x)); [by constructor | done].
  - rewrite (filter_cons _ x l2). destruct (decide (P x)); [by constructor | done].
Qed.

Lemma before_sublist a b (l k : list A) :
  before a b l -> l `sublist_of` k -> before a b k.
Proof. unfold before. intros H1 H2. by etrans. Qed.

Lemma before_app a b (l k : list A) :
  before a b (l ++ k) -> before a b l \/ (a ∈ l /\ b ∈ k) \/ before a b k.
Proof.
  unfold before. intros H. apply sublist_app_r in H as (k1 & k2 & E & H1 & H2).
  destruct k1 as [|x [|y k1]]; simpl in E.
  - subst k2. by right; right.
  - injection E as <- <-. right; left. split; by apply singleton_sublist_l.
  - injection E as <- <- E. symmetry in E. apply app_eq_nil in E as [-> ->]. by left.
Qed.

Lemma before_elem_of a b (l : list A) : before a b l -> a ∈ l /\ b ∈ l.
Proof.
  intros H; split; eapply elem_of_sublist; try exact H; set_solver.
Qed.

Lemma before_lookup a b (l : list A) :
  before a b l <-> exists i j, (i < j)%nat /\ l !! i = Some a /\ l !! j = Some b.
Proof.
  unfold before. split.
  - induction l as [|x l IH]; intros H.
    + by apply sublist_nil_r in H.
    + apply sublist_cons_r in H as [H|(l' & E & H)].
      * destruct (IH H) as (i & j & ? & ? & ?). exists (S i), (S j). split; [lia | done].
      * simplify_eq. apply singleton_sublist_l, list_elem_of_lookup in H as [j Hj].
        exists 0%nat, (S j). split; [lia | done].
  - intros (i & j & Hij & Hi & Hj).
    apply list_elem_of_split_length in Hi as (l1 & l2 & -> & ->).
    rewrite lookup_app_r in Hj by lia.
    replace (j - length l1)%nat with (S (j - length l1 - 1)) in Hj by lia.
    simpl in Hj. apply sublist_inserts_l. constructor.
    apply singleton_sublist_l. by eapply list_elem_of_lookup_2.
Qed.
End ListFacts.

Section SortFacts.
Context {A : Type} (cmp : A -> A -> Z) (f : A -> Z).
Hypothesis cmp_key : forall a b, cmp a b <= 0 <-> f a <= f b.

Lemma sort_insert_Permutation x l : sort_insert cmp x l ≡ₚ x :: l.
Proof.
  induction l as [|y l IH]; simpl; [done|].
  destruct (cmp x y <=? 0); [done|]. rewrite IH. apply Permutation_swap.
Qed.

Lemma sort_Permutation l : sort cmp l ≡ₚ l.
Proof.
  induction l as [|x l IH]; simpl; [done|].
  by rewrite sort_insert_Permutation, IH.
Qed.

Lemma sort_insert_sorted x l :
  StronglySorted (fun a b => f a <= f b) l ->
  StronglySorted (fun a b => f a <= f b) (sort_insert cmp x l).
Proof.
  induction 1 as [|y l Hl IH Hy]; simpl.
  - repeat constructor.
  - destruct (Z.leb_spec (cmp x y) 0) as [Hle|Hgt].
    + apply cmp_key in Hle. constructor; [by constructor|].
      constructor; [done|]. eapply Forall_impl; [exact Hy|]. simpl; lia.
    + assert (f y <= f x) by (destruct (Z.le_gt_cases (f x) (f y)) as [H%cmp_key|]; lia).
      constructor; [done|]. rewrite sort_insert_Permutation. by constructor.
Qed.

Lemma sort_sorted l : StronglySorted (fun a b => f a <= f b) (sort cmp l).
Proof.
  induction l as [|x l IH]; simpl; [constructor|]. by apply sort_insert_sorted.
Qed.

Lemma sort_insert_stable c x l :
  filter (fun y => f y = c) (sort_insert cmp x l) = filter (fun y => f y = c) (x :: l).
Proof.
  induction l as [|y l IH]; simpl; [done|].
  destruct (Z.leb_spec (cmp x y) 0) as [Hle|Hgt]; [done|].
  assert (f y < f x) by (destruct (Z.le_gt_cases (f x) (f y)) as [H%cmp_key|]; lia).
  rewrite (filter_cons _ y), IH, !(filter_cons _ x), !(filter_cons _ y).
  repeat case_decide; done || lia.
Qed.

(** Stability: the elements of one key keep their order. *)
Lemma sort_stable c l :
  filter (fun y => f y = c) (sort cmp l) = filter (fun y => f y = c) l.
Proof.
  induction l as [|x l IH]; simpl; [done|].
  by rewrite sort_insert_stable, !filter_cons, IH.
Qed.

Lemma sort_before a b l :
  f a = f b -> before a b (sort cmp l) -> before a b l.
Proof.
  intros Hab H. unfold before in *.
  apply (sublist_filter_mono (fun y => f y = f a)) in H.
  rewrite sort_stable in H.
  rewrite !filter_cons, filter_nil in H.
  rewrite !decide_True in H by done.
  etrans; [exact H | apply sublist_filter].
Qed.

Lemma sort_before_le a b l : before a b (sort cmp l) -> f a <= f b.
Proof.
  intros H. pose proof (sort_sorted l) as Hs.
  revert H. unfold before. induction Hs as [|x k Hk IH Hx]; intros H.
  - by apply sublist_nil_r in H.
  - apply sublist_cons_r in H as [H|(l' & E & H)]; [by apply IH|].
    simplify_eq. apply singleton_sublist_l in H.
    by eapply Forall_forall in Hx.
Qed.
End SortFacts.

Lemma arrayIndex_Some k n : arrayIndex k = Some n -> toString (Z.of_N n) = k.
Proof.
  unfold arrayIndex. destruct (digits_value 0 k) as [m|]; [|done].
  destruct (bool_decide (m <= 4294967294)%N); simpl; [|done].
  case_bool_decide; [|done]. by intros [= <-].
Qed.

Lemma arrayIndex_inj k k' n :
  arrayIndex k = Some n -> arrayIndex k' = Some n -> k = k'.
Proof. intros <-%arrayIndex_Some <-%arrayIndex_Some. done. Qed.

Section ObjFacts.
Context {V : Type}.
Implicit Types (o : obj V) (k : jsstring) (v : V).

Lemma get_None k o : get k o = None <-> k ∉ o.*1.
Proof.
  induction o as [|[k' v'] o IH]; csimpl.
  - split; [intros _; apply not_elem_of_nil | done].
  - rewrite not_elem_of_cons, <-IH. clear IH.
    case_bool_decide as Hk; [split; [done | intros [? _]; congruence]|].
    split; [intros ?; split; congruence | by intros [_ ?]].
Qed.

Lemma get_Some_elem_of k v o : get k o = Some v -> (k, v) ∈ o.
Proof.
  induction o as [|[k' v'] o IH]; simpl; [done|].
  case_bool_decide; [intros [= ->]; subst; left | right; auto].
Qed.

Lemma elem_of_get k v o : NoDup o.*1 -> (k, v) ∈ o -> get k o = Some v.
Proof.
  induction o as [|[k' v'] o IH]; simpl; [set_solver|].
  intros [Hk' Ho]%NoDup_cons [[= -> ->]|Hin]%elem_of_cons.
  - by rewrite bool_decide_eq_true_2.
  - rewrite bool_decide_eq_false_2; [auto|].
    intros ->. apply Hk'. apply list_elem_of_fmap. by exists (k, v).
Qed.

Lemma get_set k k' v o :
  get k' (set k v o) = if decide (k = k') then Some v else get k' o.
Proof.
  induction o as [|[k0 v0] o IH]; simpl.
  - case_bool_decide; case_decide; done.
  - destruct (decide (k0 = k)) as [->|Hne].
    + rewrite bool_decide_eq_true_2 by done. simpl.
      case_bool_decide; case_decide; done.
    + rewrite bool_decide_eq_false_2 by done. simpl. rewrite IH.
      case_bool_decide; case_decide; congruence.
Qed.

Lemma keys_set k v o :
  (set k v o).*1 = if decide (k ∈ o.*1) then o.*1 else o.*1 ++ [k].
Proof.
  induction o as [|[k0 v0] o IH].
  - case_decide as Hin; [by apply elem_of_nil in Hin | done].
  - rewrite fmap_cons. cbn [set fst].
    case_bool_decide as Hk; rewrite fmap_cons; cbn [fst].
    + subst. by rewrite decide_True by left.
    + rewrite IH. destruct (decide (k ∈ o.*1)) as [Hin|Hin].
      * by rewrite decide_True by (by right).
      * rewrite decide_False; [done|].
        intros [?|?]%elem_of_cons; congruence.
Qed.

Lemma NoDup_keys_set k v o : NoDup o.*1 -> NoDup (set k v o).*1.
Proof.
  intros H. rewrite keys_set. case_decide; [done|].
  apply NoDup_app. split_and!; [done | | apply NoDup_singleton].
  by intros x Hx ->%list_elem_of_singleton.
Qed.

Lemma index_of_cmp (a b : jsstring * V) :
  index_of a - index_of b <= 0 <-> index_of a <= index_of b.
Proof. lia. Qed.

Lemma entries_Permutation o : entries o ≡ₚ o.
Proof.
  unfold entries. rewrite sort_Permutation.
  rewrite (list_filter_iff (fun p => arrayIndex p.1 = None)
             (fun p => ~ is_Some (arrayIndex p.1)))
    by (intros p; apply eq_None_not_Some).
  apply filter_app_complement.
Qed.

Lemma elem_of_entries p o : p ∈ entries o <-> p ∈ o.
Proof. by rewrite entries_Permutation. Qed.

Lemma NoDup_entries o : NoDup o.*1 -> NoDup (entries o).*1.
Proof. by rewrite entries_Permutation. Qed.

Lemma entries_before p q o :
  NoDup o.*1 -> before p q (entries o) -> entries_order o p q.
Proof.
  intros Hnd H. unfold entries_order.
  pose proof (NoDup_fmap_1 _ _ Hnd) as Hnd'.
  apply before_app in H as [H|[[Hp Hq]|H]].
  - pose proof (sort_before_le _ _ index_of_cmp _ _ _ H) as Hle.
    pose proof (before_elem_of _ _ _ H) as [Hp Hq].
    rewrite sort_Permutation in Hp, Hq.
    apply list_elem_of_filter in Hp as [[m Hm] Hp], Hq as [[n Hn] Hq].
    unfold index_of in Hle. rewrite Hm, Hn in *.
    destruct (decide (m = n)) as [->|]; [|lia].
    assert (p = q) as ->.
    { pose proof (arrayIndex_inj _ _ _ Hm Hn) as Hk.
      destruct p as [kp vp], q as [kq vq]; simpl in *; subst.
      apply (elem_of_get _ _ _ Hnd) in Hp, Hq. congruence. }
    exfalso. unfold before in H.
    eapply sublist_NoDup in H.
    + apply NoDup_cons in H as [H _]. set_solver.
    + rewrite sort_Permutation. by apply NoDup_filter.
  - rewrite sort_Permutation in Hp.
    apply list_elem_of_filter in Hp as [[m Hm] _], Hq as [Hn _].
    by rewrite Hm, Hn.
  - pose proof (before_elem_of _ _ _ H) as [Hp Hq].
    apply list_elem_of_filter in Hp as [Hm _], Hq as [Hn _].
    rewrite Hm, Hn. eapply before_sublist; [exact H | apply sublist_filter].
Qed.
End ObjFacts.

Section FirstSeen.
Implicit Types (k : jsstring) (ks : list jsstring).

Lemma firstSeen_None k ks : firstSeen k ks = None <-> k ∉ ks.
Proof.
  induction ks as [|k' ks IH]; simpl.
  - split; [intros _; apply not_elem_of_nil | done].
  - rewrite not_elem_of_cons, <-IH. clear IH.
    case_bool_decide as Hk.
    + split; [done | intros [? _]; congruence].
    + destruct (firstSeen k ks); simpl; split; try done; try (intros [_ ?]; done).
Qed.

Lemma firstSeen_lt k ks i : firstSeen k ks = Some i -> (i < length ks)%nat.
Proof.
  revert i. induction ks as [|k' ks IH]; intros i; simpl; [done|].
  case_bool_decide; [intros [= <-]; lia|].
  destruct (firstSeen k ks) as [j|]; simpl; [|done].
  intros [= <-]. specialize (IH j eq_refl). lia.
Qed.

Lemma firstSeen_app_l k ks ks' i :
  firstSeen k ks = Some i -> firstSeen k (ks ++ ks') = Some i.
Proof.
  revert i. induction ks as [|k' ks IH]; intros i; simpl; [done|].
  case_bool_decide; [done|].
  destruct (firstSeen k ks) as [j|]; simpl; [|done].
  intros [= <-]. by rewrite (IH j eq_refl).
Qed.

Lemma firstSeen_snoc_new k ks :
  k ∉ ks -> firstSeen k (ks ++ [k]) = Some (length ks).
Proof.
  induction ks as [|k' ks IH]; simpl.
  - intros _. by rewrite bool_decide_eq_true_2.
  - intros [Hne Hk]%not_elem_of_cons.
    rewrite bool_decide_eq_false_2 by congruence. by rewrite IH.
Qed.

Lemma occurrences_snoc k k' ks :
  occurrences k (ks ++ [k']) = occurrences k ks + (if decide (k = k') then 1 else 0).
Proof.
  unfold occurrences. rewrite filter_app, length_app, filter_cons, filter_nil.
  case_decide; simpl; lia.
Qed.

Lemma occurrences_pos k ks : k ∈ ks -> 0 < occurrences k ks.
Proof.
  intros Hk. unfold occurrences.
  assert (k ∈ filter (eq k) ks) as Hin by (by apply list_elem_of_filter).
  destruct (filter (eq k) ks); [by apply elem_of_nil in Hin | simpl; lia].
Qed.

Lemma occurrences_notin k ks : k ∉ ks -> occurrences k ks = 0.
Proof.
  intros Hk. unfold occurrences.
  destruct (filter (eq k) ks) as [|x l] eqn:E; [done|].
  assert (x ∈ filter (eq k) ks) as [<- ?]%list_elem_of_filter by (rewrite E; left).
  done.
Qed.
End FirstSeen.

Section CountWords.
Implicit Types (ws : list jsvalue) (k : jsstring).

Lemma countWords_snoc ws w :
  countWords (ws ++ [w]) =
  set (toPropertyKey w) (increment (get (toPropertyKey w) (countWords ws)))
      (countWords ws).
Proof. unfold countWords. by rewrite foldl_snoc. Qed.

Lemma countWords_NoDup ws : NoDup (countWords ws).*1.
Proof.
  induction ws as [|w ws IH] using rev_ind; [constructor|].
  rewrite countWords_snoc. by apply NoDup_keys_set.
Qed.

Lemma countWords_get ws k :
  get k (countWords ws) =
  if decide (k ∈ toPropertyKey <$> ws)
  then Some (occurrences k (toPropertyKey <$> ws)) else None.
Proof.
  induction ws as [|w ws IH] using rev_ind.
  - by rewrite decide_False by apply not_elem_of_nil.
  - rewrite countWords_snoc, get_set, fmap_app.
    change (toPropertyKey <$> [w]) with [toPropertyKey w].
    rewrite occurrences_snoc.
    destruct (decide (toPropertyKey w = k)) as [->|Hne].
    + rewrite decide_True by (apply elem_of_app; right; left).
      rewrite decide_True by done. rewrite IH.
      case_decide as Hin; simpl.
      * pose proof (occurrences_pos _ _ Hin).
        by rewrite bool_decide_eq_false_2 by lia.
      * by rewrite (occurrences_notin _ _ Hin).
    + rewrite (decide_False (P := k = _)) by done. rewrite IH, Z.add_0_r.
      destruct (decide (k ∈ toPropertyKey <$> ws)) as [Hin|Hin].
      * by rewrite decide_True by (apply elem_of_app; by left).
      * rewrite decide_False; [done|].
        intros [?|?%list_elem_of_singleton]%elem_of_app; congruence.
Qed.

Lemma countWords_keys ws k :
  k ∈ (countWords ws).*1 <-> k ∈ toPropertyKey <$> ws.
Proof.
  pose proof (countWords_get ws k) as H.
  pose proof (get_None k (countWords ws)) as H'.
  case_decide.
  - split; [done|]. intros _. destruct (decide (k ∈ (countWords ws).*1)); [done|].
    apply H' in n. congruence.
  - split; [|done]. intros Hk. by apply H' in H.
Qed.

(** Properties are created in first-seen order. *)
Lemma countWords_before ws a b :
  before a b (countWords ws).*1 -> seen_before (toPropertyKey <$> ws) a b.
Proof.
  induction ws as [|w ws IH] using rev_ind.
  - intros H. by apply sublist_nil_r in H.
  - rewrite countWords_snoc, keys_set, fmap_app.
    change (toPropertyKey <$> [w]) with [toPropertyKey w].
    case_decide as Hw.
    + intros (i & j & Hi & Hj & Hij)%IH.
      exists i, j. split_and!; [by apply firstSeen_app_l..|done].
    + intros [H|[[Ha Hb]|H]]%before_app.
      * destruct (IH H) as (i & j & Hi & Hj & Hij).
        exists i, j. split_and!; [by apply firstSeen_app_l..|done].
      * apply list_elem_of_singleton in Hb as ->.
        rewrite countWords_keys in Ha, Hw.
        destruct (firstSeen a (toPropertyKey <$> ws)) as [i|] eqn:Hi;
          [|by apply firstSeen_None in Hi].
        exists i, (length (toPropertyKey <$> ws)).
        split_and!; [by apply firstSeen_app_l | by apply firstSeen_snoc_new |].
        by eapply firstSeen_lt.
      * apply sublist_length in H. simpl in H. lia.
Qed.
End CountWords.

Section MoreListFacts.
Context {A : Type}.

Lemma StronglySorted_sublist (R : relation A) (l k : list A) :
  l `sublist_of` k -> StronglySorted R k -> StronglySorted R l.
Proof.
  induction 1 as [|x l k Hlk IH|x l k Hlk IH]; intros Hk; [done| |].
  - apply StronglySorted_inv in Hk as [Hk Hx]. constructor; [auto|].
    apply Forall_forall. intros y Hy. eapply Forall_forall in Hx; [done|].
    by eapply elem_of_sublist.
  - apply StronglySorted_inv in Hk as [Hk _]. auto.
Qed.

Lemma StronglySorted_mono (R R' : relation A) (l : list A) :
  (forall a b, R a b -> R' a b) -> StronglySorted R l -> StronglySorted R' l.
Proof.
  intros HR. induction 1 as [|x l Hl IH Hx]; constructor; [done|].
  eapply Forall_impl; [exact Hx | auto].
Qed.

Lemma filter_all (P : A -> Prop) `{!forall x, Decision (P x)} (l : list A) :
  (forall x, x ∈ l -> P x) -> filter P l = l.
Proof.
  induction l as [|x l IH]; intros Hl; [done|].
  rewrite filter_cons, decide_True by (apply Hl; left).
  f_equal. apply IH. intros y Hy. apply Hl. by right.
Qed.

Lemma sublist_fmap_mono {B} (f : A -> B) (l k : list A) :
  l `sublist_of` k -> f <$> l `sublist_of` f <$> k.
Proof. induction 1; csimpl; by constructor. Qed.

Lemma before_fmap {B} (f : A -> B) (a b : B) (l : list A) :
  before a b (f <$> l) -> exists p q, a = f p /\ b = f q /\ before p q l.
Proof.
  rewrite before_lookup. intros (i & j & Hij & Hi & Hj).
  apply list_lookup_fmap_Some in Hi as (p & -> & Hp), Hj as (q & -> & Hq).
  exists p, q. split_and!; [done..|]. apply before_lookup. eauto.
Qed.

Lemma before_fmap_2 {B} (f : A -> B) (p q : A) (l : list A) :
  before p q l -> before (f p) (f q) (f <$> l).
Proof.
  rewrite !before_lookup. intros (i & j & Hij & Hi & Hj).
  exists i, j. split_and!; [done|..]; rewrite list_lookup_fmap.
  - by rewrite Hi.
  - by rewrite Hj.
Qed.
End MoreListFacts.

Section WordCloud.
Implicit Types (ws : list jsvalue).

Lemma by_count_key (a b : word_entry) :
  count b - count a <= 0 <-> - count a <= - count b.
Proof. lia. Qed.

Lemma wordCloud_sublist ws :
  wordCloud ws `sublist_of`
    sort (fun a b => count b - count a)
         ((fun p => mkWord p.1 p.2) <$> entries (countWords ws)).
Proof. apply sublist_take. Qed.

Lemma wordCloud_length ws : (length (wordCloud ws) <= 10)%nat.
Proof. unfold wordCloud. rewrite length_take. lia. Qed.

Lemma wordCloud_sorted ws :
  StronglySorted (fun a b => count b <= count a) (wordCloud ws).
Proof.
  eapply StronglySorted_sublist; [apply wordCloud_sublist|].
  eapply StronglySorted_mono;
    [|apply (sort_sorted _ (fun e => - count e) by_count_key)].
  simpl. lia.
Qed.

Lemma wordCloud_elem ws e :
  e ∈ wordCloud ws ->
  word e ∈ toPropertyKey <$> ws /\
  count e = occurrences (word e) (toPropertyKey <$> ws).
Proof.
  intros He. eapply elem_of_sublist in He; [|apply wordCloud_sublist].
  rewrite sort_Permutation in He.
  apply list_elem_of_fmap in He as ([k v] & -> & Hp). simpl.
  apply (proj1 (elem_of_entries _ _)) in Hp.
  apply (elem_of_get _ _ _ (countWords_NoDup ws)) in Hp.
  rewrite countWords_get in Hp. case_decide; [|done].
  by injection Hp as <-.
Qed.

Lemma wordCloud_NoDup ws : NoDup (word <$> wordCloud ws).
Proof.
  eapply sublist_NoDup; [|apply sublist_fmap_mono, wordCloud_sublist].
  rewrite sort_Permutation, <-list_fmap_compose.
  apply NoDup_entries, countWords_NoDup.
Qed.

Lemma wordCloud_ties ws a b :
  before a b (wordCloud ws) -> count a = count b ->
  enumerated_before (toPropertyKey <$> ws) (word a) (word b).
Proof.
  intros H Hc.
  apply (fun H => before_sublist _ _ _ _ H (wordCloud_sublist ws)) in H.
  apply (sort_before _ (fun e => - count e) by_count_key) in H; [|simpl; lia].
  apply before_fmap in H as ([ka va] & [kb vb] & -> & -> & H). simpl.
  apply entries_before in H; [|apply countWords_NoDup].
  unfold entries_order in H. unfold enumerated_before. simpl in H.
  destruct (arrayIndex ka), (arrayIndex kb); try done.
  apply countWords_before.
  by apply (before_fmap_2 fst) in H.
Qed.
(** What the truncation leaves out has no more votes than what it keeps. *)
Lemma wordCloud_top ws k e :
  k ∈ toPropertyKey <$> ws -> k ∉ word <$> wordCloud ws -> e ∈ wordCloud ws ->
  occurrences k (toPropertyKey <$> ws) <= count e.
Proof.
  intros Hk Hout He.
  set (full := sort (fun a b => count b - count a)
                    ((fun p => mkWord p.1 p.2) <$> entries (countWords ws))).
  assert (StronglySorted (fun a b => count b <= count a) full) as Hs.
  { eapply StronglySorted_mono;
      [|apply (sort_sorted _ (fun e => - count e) by_count_key)].
    simpl. lia. }
  assert (mkWord k (occurrences k (toPropertyKey <$> ws)) ∈ full) as Hin.
  { unfold full. rewrite sort_Permutation.
    apply list_elem_of_fmap. exists (k, occurrences k (toPropertyKey <$> ws)).
    split; [done|]. apply elem_of_entries, get_Some_elem_of.
    by rewrite countWords_get, decide_True. }
  rewrite <-(take_drop 10 full) in Hs, Hin.
  apply elem_of_app in Hin as [Hin|Hin].
  - exfalso. apply Hout. apply list_elem_of_fmap.
    eexists. split; [|exact Hin]. done.
  - apply (StronglySorted_app_1_elem_of _ _ _ _ _ Hs He Hin).
Qed.
End WordCloud.

(** ** Facts about the presenter *)

Section Responses.
Implicit Types (st : state) (ev : response_row) (k : jsstring)
               (m : gmap jsstring (list jsvalue)).

Lemma push_lookup m k v k' :
  push m k v !! k' =
  if decide (k = k') then Some (default [] (m !! k) ++ [v]) else m !! k'.
Proof. unfold push. by rewrite lookup_insert. Qed.

Lemma total_responses_push m k v :
  total_responses (push m k v) = total_responses m + 1.
Proof.
  unfold total_responses, push.
  assert (forall (j1 j2 : jsstring) (z1 z2 : list jsvalue) (y : Z),
            Z.of_nat (length z1) + (Z.of_nat (length z2) + y) =
            Z.of_nat (length z2) + (Z.of_nat (length z1) + y)) as Hcomm by (intros; lia).
  destruct (m !! k) as [l|] eqn:Hk; simpl.
  - rewrite <-insert_delete_eq.
    rewrite map_fold_insert_L; [|by intros; apply Hcomm | apply lookup_delete_eq].
    rewrite (map_fold_delete_L _ _ k l m); [|by intros; apply Hcomm | done].
    rewrite length_app. simpl. lia.
  - rewrite map_fold_insert_L; [|by intros; apply Hcomm | done]. simpl. lia.
Qed.

Lemma onInsert_responses ev st :
  responses (onInsert ev st) =
  push (responses st) (question_id ev) (response_data ev).
Proof.
  unfold onInsert, push. simpl.
  destruct (responses st !! question_id ev) as [l|] eqn:Hk; simpl.
  - by rewrite Hk.
  - by rewrite lookup_insert_eq, insert_insert_eq.
Qed.

Lemma groupResponses_snoc data r :
  groupResponses (data ++ [r]) =
  push (groupResponses data) (question_id r) (response_data r).
Proof.
  unfold groupResponses at 1. rewrite foldl_snoc. fold (groupResponses data).
  unfold push.
  destruct (groupResponses data !! question_id r) as [l|] eqn:Hk; simpl.
  - by rewrite Hk.
  - by rewrite lookup_insert_eq, insert_insert_eq.
Qed.

Lemma total_groupResponses data :
  total_responses (groupResponses data) = Z.of_nat (length data).
Proof.
  induction data as [|r data IH] using rev_ind; [done|].
  rewrite groupResponses_snoc, total_responses_push, IH, length_app. simpl. lia.
Qed.

Lemma run_snoc events ev st : run (events ++ [ev]) st = receive ev (run events st).
Proof. unfold run. by rewrite foldl_snoc. Qed.

Lemma receive_questions ev st : questions (receive ev st) = questions st.
Proof. unfold receive. by destruct (subscribed st ev). Qed.

Lemma receive_index ev st :
  currentQuestionIndex (receive ev st) = currentQuestionIndex st.
Proof. unfold receive. by destruct (subscribed st ev). Qed.

Lemma run_questions events st : questions (run events st) = questions st.
Proof.
  induction events as [|ev events IH] using rev_ind; [done|].
  by rewrite run_snoc, receive_questions.
Qed.

Lemma run_index events st :
  currentQuestionIndex (run events st) = currentQuestionIndex st.
Proof.
  induction events as [|ev events IH] using rev_ind; [done|].
  by rewrite run_snoc, receive_index.
Qed.

Lemma run_currentQuestion events st :
  currentQuestion (run events st) = currentQuestion st.
Proof. unfold currentQuestion. by rewrite run_index, run_questions. Qed.

Lemma run_subscribed events st ev :
  subscribed (run events st) ev = subscribed st ev.
Proof. unfold subscribed. by rewrite run_questions. Qed.

Lemma currentQuestion_elem_of st q : currentQuestion st = Some q -> q ∈ questions st.
Proof.
  unfold currentQuestion. destruct (_ <? 0); [done|].
  apply list_elem_of_lookup_2.
Qed.

Lemma currentQuestion_subscribed st q v :
  currentQuestion st = Some q -> subscribed st (mkRow (id q) v) = true.
Proof.
  intros Hq%currentQuestion_elem_of. unfold subscribed. simpl.
  apply bool_decide_eq_true_2, list_elem_of_fmap. eauto.
Qed.

(** The count follows the number of stored records. *)
Lemma run_participantCount events st :
  participantCount (run events st) =
  participantCount st + Z.of_nat (length (filter (fun e => subscribed st e = true) events)).
Proof.
  induction events as [|ev events IH] using rev_ind; [simpl; lia|].
  rewrite run_snoc, filter_app, length_app, filter_cons, filter_nil.
  unfold receive. rewrite run_subscribed.
  destruct (subscribed st ev) eqn:Hs.
  - rewrite decide_True by done. cbn [onInsert participantCount length app].
    rewrite IH. lia.
  - rewrite decide_False by done. rewrite IH. cbn [length app]. lia.
Qed.

Lemma run_total events st :
  total_responses (responses (run events st)) =
  total_responses (responses st)
  + Z.of_nat (length (filter (fun e => subscribed st e = true) events)).
Proof.
  induction events as [|ev events IH] using rev_ind; [simpl; lia|].
  rewrite run_snoc, filter_app, length_app, filter_cons, filter_nil.
  unfold receive. rewrite run_subscribed.
  destruct (subscribed st ev) eqn:Hs.
  - rewrite decide_True by done.
    rewrite onInsert_responses, total_responses_push, IH. cbn [length app]. lia.
  - rewrite decide_False by done. rewrite IH. cbn [length app]. lia.
Qed.

(** What is stored for one question after a sequence of notifications. *)
Lemma run_responses events st k :
  k ∈ id <$> questions st ->
  default [] (responses (run events st) !! k) =
  default [] (responses st !! k)
  ++ (response_data <$> filter (fun e => question_id e = k) events).
Proof.
  intros Hk. induction events as [|ev events IH] using rev_ind.
  - by rewrite app_nil_r.
  - rewrite run_snoc, filter_app, fmap_app, filter_cons, filter_nil, app_assoc, <-IH.
    unfold receive. rewrite run_subscribed.
    destruct (subscribed st ev) eqn:Hs.
    + rewrite onInsert_responses, push_lookup.
      repeat case_decide; subst; simpl; try done. by rewrite app_nil_r.
    + case_decide as Hq; [|by rewrite app_nil_r].
      subst k. unfold subscribed in Hs. by apply bool_decide_eq_false_1 in Hs.
Qed.
End Responses.

Section Chart.
Implicit Types (rs : list jsvalue) (ks : list jsstring) (c : jsstring -> Z).

Lemma count_eq_cons x r rs :
  count_eq x (r :: rs) = (if decide (r = x) then 1 else 0) + count_eq x rs.
Proof.
  unfold count_eq, strict_eq. simpl.
  case_bool_decide; case_decide; try done; simpl; lia.
Qed.

Lemma count_eq_snoc x r rs :
  count_eq x (rs ++ [r]) = count_eq x rs + (if decide (r = x) then 1 else 0).
Proof.
  induction rs as [|r' rs IH]; simpl.
  - rewrite count_eq_cons. unfold count_eq. simpl. lia.
  - rewrite !count_eq_cons, IH. lia.
Qed.

(** The object filled by [forEach] over the options. *)
Lemma tally_get c ks k :
  get k (foldl (fun counts option => set option (c option) counts) [] ks) =
  if decide (k ∈ ks) then Some (c k) else None.
Proof.
  induction ks as [|k' ks IH] using rev_ind.
  - by rewrite decide_False by apply not_elem_of_nil.
  - rewrite foldl_snoc, get_set, IH.
    destruct (decide (k' = k)) as [->|Hne].
    + by rewrite decide_True by (apply elem_of_app; right; left).
    + destruct (decide (k ∈ ks)) as [Hin|Hin].
      * by rewrite decide_True by (apply elem_of_app; by left).
      * rewrite decide_False; [done|].
        intros [?|?%list_elem_of_singleton]%elem_of_app; congruence.
Qed.

Lemma tally_NoDup c ks :
  NoDup (foldl (fun counts option => set option (c option) counts) [] ks).*1.
Proof.
  induction ks as [|k' ks IH] using rev_ind; [constructor|].
  rewrite foldl_snoc. by apply NoDup_keys_set.
Qed.

Lemma tally_keys c ks k :
  k ∈ (foldl (fun counts option => set option (c option) counts) [] ks).*1
  <-> k ∈ ks.
Proof.
  pose proof (tally_get c ks k) as H.
  pose proof (get_None k (foldl (fun counts option => set option (c option) counts) [] ks)) as H'.
  case_decide as Hk.
  - split; [done|]. intros _. apply dec_stable. intros Hn. apply H' in Hn. congruence.
  - split; [|done]. intros Hin. by apply H' in H.
Qed.

Lemma tally_elem_of c ks k v :
  (k, v) ∈ foldl (fun counts option => set option (c option) counts) [] ks ->
  k ∈ ks /\ v = c k.
Proof.
  intros H. apply (elem_of_get _ _ _ (tally_NoDup c ks)) in H.
  rewrite tally_get in H. case_decide; [|done]. by injection H as <-.
Qed.

Lemma sum_values_Permutation (l k : list chart_entry) :
  l ≡ₚ k -> sum_values l = sum_values k.
Proof.
  induction 1 as [|x l k _ IH|x y l|l k m _ IH1 _ IH2]; simpl; lia.
Qed.

Lemma sum_values_tally c (o : obj Z) :
  (forall k v, (k, v) ∈ o -> v = c k) ->
  sum_values ((fun p => mkChart p.1 p.2) <$> o) = sum_with c o.*1.
Proof.
  induction o as [|[k v] o IH]; intros Hc; csimpl; [done|].
  rewrite IH by (intros ???; apply Hc; by right).
  by rewrite (Hc k v) by left.
Qed.

Lemma sum_with_add f g ks :
  sum_with (fun k => f k + g k) ks = sum_with f ks + sum_with g ks.
Proof. induction ks as [|k ks IH]; simpl; lia. Qed.

Lemma sum_with_indicator (r : jsvalue) ks :
  NoDup ks ->
  sum_with (fun k => if decide (r = VStr k) then 1 else 0) ks =
  if decide (r ∈ VStr <$> ks) then 1 else 0.
Proof.
  induction 1 as [|k ks Hk _ IH].
  - by rewrite decide_False by (rewrite fmap_nil; apply not_elem_of_nil).
  - rewrite fmap_cons. change (sum_with ?f (k :: ks)) with (f k + sum_with f ks).
    rewrite IH. destruct (decide (r = VStr k)) as [->|Hne].
    + rewrite (decide_True (P := _ ∈ _ :: _)) by left.
      rewrite decide_False; [done|].
      intros (k' & [= <-] & ?)%list_elem_of_fmap. done.
    + destruct (decide (r ∈ VStr <$> ks)) as [Hin|Hin].
      * by rewrite decide_True by (by right).
      * rewrite decide_False; [done|].
        intros [?|?]%elem_of_cons; done.
Qed.

(** Every response that is a declared option is counted once. *)
Lemma sum_with_count_eq rs ks :
  NoDup ks ->
  sum_with (fun k => count_eq (VStr k) rs) ks =
  Z.of_nat (length (filter (fun r => r ∈ VStr <$> ks) rs)).
Proof.
  intros Hks. induction rs as [|r rs IH].
  - clear Hks. induction ks as [|k ks IHk]; simpl; [done|].
    by rewrite IHk.
  - rewrite filter_cons.
    transitivity (sum_with (fun k => (if decide (r = VStr k) then 1 else 0)
                                     + count_eq (VStr k) rs) ks).
    { clear. induction ks as [|k ks IHk]; simpl; [done|].
      by rewrite IHk, count_eq_cons. }
    rewrite sum_with_add, IH, sum_with_indicator by done.
    case_decide; simpl; lia.
Qed.

Lemma rating_counts rs :
  (fun p => mkChart p.1 p.2) <$>
    entries (foldl (fun counts i => set (toString i) (count_eq (VNum i) rs) counts)
                   [] (seqZ 1 10))
  = (fun i => mkChart (toString i) (count_eq (VNum i) rs)) <$> seqZ 1 10.
Proof. reflexivity. Qed.

Lemma getChartData_rating st q :
  currentQuestion st = Some q -> question_type q = rating ->
  getChartData st =
  (fun i => mkChart (toString i) (count_eq (VNum i) (responsesOf st q))) <$> seqZ 1 10.
Proof.
  intros Hq Ht. unfold getChartData. rewrite Hq, Ht. apply rating_counts.
Qed.

Lemma getChartData_choice st q :
  currentQuestion st = Some q -> question_type q = multiple_choice ->
  getChartData st =
  (fun p => mkChart p.1 p.2) <$>
    entries (foldl (fun counts option =>
                      set option (count_eq (VStr option) (responsesOf st q)) counts)
                   [] (default [] (options q))).
Proof. intros Hq Ht. unfold getChartData. by rewrite Hq, Ht. Qed.

Lemma choice_sum st q :
  currentQuestion st = Some q -> question_type q = multiple_choice ->
  sum_values (getChartData st) =
  Z.of_nat (length (filter (fun r => r ∈ VStr <$> default [] (options q))
                           (responsesOf st q))).
Proof.
  intros Hq Ht. rewrite (getChartData_choice _ _ Hq Ht).
  set (c := fun k => count_eq (VStr k) (responsesOf st q)).
  set (o := foldl _ _ _).
  rewrite (sum_values_Permutation _ ((fun p => mkChart p.1 p.2) <$> o))
    by (by rewrite entries_Permutation).
  rewrite (sum_values_tally c) by (intros k v Hkv; by apply tally_elem_of in Hkv as [_ ->]).
  unfold c. rewrite sum_with_count_eq by apply tally_NoDup.
  do 2 f_equal. apply list_filter_iff. intros r.
  rewrite !list_elem_of_fmap. subst o.
  split; intros (k & -> & Hk); exists k; (split; [done|]); by apply (tally_keys c).
Qed.

Lemma choice_names st q e :
  currentQuestion st = Some q -> question_type q = multiple_choice ->
  e ∈ getChartData st -> name e ∈ default [] (options q).
Proof.
  intros Hq Ht. rewrite (getChartData_choice _ _ Hq Ht).
  intros ([k v] & -> & Hp)%list_elem_of_fmap.
  apply (proj1 (elem_of_entries _ _)) in Hp.
  by apply tally_elem_of in Hp as [? _].
Qed.
End Chart.

(** ** Facts about the participant *)

Section Trim.
Lemma trimStart_blank s :
  Forall (fun c => isWhiteSpace c = true) s -> trimStart s = [].
Proof. induction 1 as [|c s Hc _ IH]; simpl; [done|]. by rewrite Hc. Qed.

Lemma trim_blank s :
  Forall (fun c => isWhiteSpace c = true) s -> trim s = [].
Proof. intros H. unfold trim. by rewrite (trimStart_blank _ H). Qed.

Lemma trimStart_nil s :
  trimStart s = [] -> Forall (fun c => isWhiteSpace c = true) s.
Proof.
  induction s as [|c s IH]; simpl; [constructor|].
  destruct (isWhiteSpace c) eqn:Hc; [|done]. constructor; auto.
Qed.

Lemma trim_nil s : trim s = [] -> Forall (fun c => isWhiteSpace c = true) s.
Proof.
  unfold trim, trimEnd. intros H.
  assert (trimStart (rev (trimStart s)) = []) as H'
    by (by rewrite <-(rev_involutive (trimStart _)), H).
  apply trimStart_nil, Forall_rev in H'. rewrite rev_involutive in H'.
  clear H. induction s as [|c s IH]; [constructor|].
  simpl in H'. destruct (isWhiteSpace c) eqn:Hc.
  - constructor; auto.
  - apply Forall_cons in H' as [? _]. congruence.
Qed.
End Trim.

(** ** The aggregates shown to the presenter *)

Section Aggregates.
Implicit Types (st : state) (ev : response_row).

Lemma StronglySorted_before {A} (R : relation A) (l : list A) a b :
  StronglySorted R l -> before a b l -> R a b.
Proof.
  unfold before. induction 1 as [|x k Hk IH Hx]; intros H.
  - by apply sublist_nil_r in H.
  - apply sublist_cons_r in H as [H|(l' & E & H)]; [by apply IH|].
    simplify_eq. apply singleton_sublist_l in H.
    by eapply Forall_forall in Hx.
Qed.

Lemma receive_currentQuestion ev st :
  currentQuestion (receive ev st) = currentQuestion st.
Proof. unfold currentQuestion. by rewrite receive_index, receive_questions. Qed.

Lemma receive_responses ev st :
  subscribed st ev = true ->
  responses (receive ev st) = push (responses st) (question_id ev) (response_data ev).
Proof. intros Hs. unfold receive. rewrite Hs. apply onInsert_responses. Qed.

Lemma receive_participantCount ev st :
  subscribed st ev = true ->
  participantCount (receive ev st) = participantCount st + 1.
Proof. intros Hs. unfold receive. by rewrite Hs. Qed.

(** The aggregates are functions of the current question and of the
    responses stored for it. *)
Lemma aggregates_same st st' :
  currentQuestion st' = currentQuestion st ->
  (forall q, currentQuestion st = Some q -> responses st' !! id q = responses st !! id q) ->
  getChartData st' = getChartData st
  /\ getWordCloudData st' = getWordCloudData st
  /\ questionResponses st' = questionResponses st.
Proof.
  intros Hq Hr. unfold getChartData, getWordCloudData, questionResponses.
  rewrite Hq. destruct (currentQuestion st) as [q|]; [|done].
  unfold responsesOf. by rewrite (Hr q eq_refl).
Qed.

Lemma receive_questionResponses st q v :
  currentQuestion st = Some q ->
  questionResponses (receive (mkRow (id q) v) st) = questionResponses st ++ [v].
Proof.
  intros Hq. unfold questionResponses, responsesOf.
  rewrite receive_currentQuestion, Hq.
  rewrite receive_responses by by apply currentQuestion_subscribed.
  rewrite push_lookup. simpl. by rewrite decide_True.
Qed.

Lemma run_questionResponses st q events :
  currentQuestion st = Some q ->
  questionResponses (run events st) =
  questionResponses st
  ++ (response_data <$> filter (fun e => question_id e = id q) events).
Proof.
  intros Hq. unfold questionResponses, responsesOf.
  rewrite run_currentQuestion, Hq. apply run_responses.
  apply list_elem_of_fmap. exists q. split; [done|].
  by apply currentQuestion_elem_of.
Qed.

Lemma getWordCloudData_wordCloud st :
  getWordCloudData st = [] \/ getWordCloudData st = wordCloud (questionResponses st).
Proof.
  unfold getWordCloudData, questionResponses.
  destruct (currentQuestion st); auto.
Qed.

Lemma getWordCloudData_elem st e :
  e ∈ getWordCloudData st ->
  word e ∈ toPropertyKey <$> questionResponses st
  /\ count e = occurrences (word e) (toPropertyKey <$> questionResponses st).
Proof.
  destruct (getWordCloudData_wordCloud st) as [->| ->].
  - by intros ?%elem_of_nil.
  - apply wordCloud_elem.
Qed.

Lemma getWordCloudData_NoDup st : NoDup (word <$> getWordCloudData st).
Proof.
  destruct (getWordCloudData_wordCloud st) as [->| ->].
  - constructor.
  - apply wordCloud_NoDup.
Qed.

Lemma getWordCloudData_length st : (length (getWordCloudData st) <= 10)%nat.
Proof.
  destruct (getWordCloudData_wordCloud st) as [->| ->].
  - simpl. lia.
  - apply wordCloud_length.
Qed.

Lemma getWordCloudData_order st i j a b :
  (i < j)%nat ->
  getWordCloudData st !! i = Some a -> getWordCloudData st !! j = Some b ->
  count b <= count a
  /\ (count a = count b ->
      enumerated_before (toPropertyKey <$> questionResponses st) (word a) (word b)).
Proof.
  intros Hij Ha Hb.
  assert (before a b (getWordCloudData st)) as H by (apply before_lookup; eauto).
  destruct (getWordCloudData_wordCloud st) as [E|E]; rewrite E in H.
  - by apply sublist_nil_r in H.
  - split.
    + by apply (StronglySorted_before _ _ _ _ (wordCloud_sorted _)) in H.
    + by apply wordCloud_ties.
Qed.

Lemma getWordCloudData_top st k e :
  k ∈ toPropertyKey <$> questionResponses st ->
  k ∉ word <$> getWordCloudData st -> e ∈ getWordCloudData st ->
  occurrences k (toPropertyKey <$> questionResponses st) <= count e.
Proof.
  destruct (getWordCloudData_wordCloud st) as [->| ->].
  - by intros _ _ ?%elem_of_nil.
  - apply wordCloud_top.
Qed.

(** Values that no bar of the rating chart counts. *)
Lemma rating_unchanged st q v :
  currentQuestion st = Some q -> question_type q = rating ->
  (forall i, 1 <= i <= 10 -> v <> VNum i) ->
  getChartData (receive (mkRow (id q) v) st) = getChartData st.
Proof.
  intros Hq Ht Hv.
  rewrite (getChartData_rating _ q), (getChartData_rating st q);
    [|done..|by rewrite receive_currentQuestion|done].
  pose proof (receive_questionResponses st q v Hq) as Hr.
  unfold questionResponses in Hr. rewrite receive_currentQuestion, Hq in Hr.
  rewrite Hr. apply list_fmap_ext. intros _ i Hi%list_elem_of_lookup_2.
  apply elem_of_seqZ in Hi. f_equal. rewrite count_eq_snoc.
  rewrite decide_False; [lia|]. apply Hv. lia.
Qed.
End Aggregates.

(** ** Facts about navigation and submission *)

Section Handlers.
Lemma nextQuestion_last st :
  currentQuestionIndex st = Z.of_nat (length (questions st)) - 1 ->
  nextQuestion st = [] /\ after nextQuestion st = st.
Proof.
  intros H. unfold after, nextQuestion.
  by rewrite (proj2 (Z.ltb_ge _ _)) by lia.
Qed.

Lemma prevQuestion_first st :
  currentQuestionIndex st = 0 ->
  prevQuestion st = [] /\ after prevQuestion st = st.
Proof. intros H. unfold after, prevQuestion. by rewrite H. Qed.

Lemma submitAnswer_blank st question :
  Participant.questionAt (Participant.currentQuestion st) = Some question ->
  Participant.type question = Participant.OpenText
  \/ Participant.type question = Participant.WordCloud ->
  Forall (fun c => isWhiteSpace c = true) (Participant.textAnswer st) ->
  Participant.submitAnswer st =
  Some (st, Participant.mkEffects
              [Participant.mkToast (lit "Answer Required")
                                   (lit "Please provide an answer")
                                   Participant.Destructive] []).
Proof.
  intros Hq Ht Hs. unfold Participant.submitAnswer.
  rewrite Hq, (trim_blank _ Hs). by destruct Ht as [-> | ->].
Qed.

Lemma submitAnswer_scale st question v :
  Participant.questionAt (Participant.currentQuestion st) = Some question ->
  Participant.type question = Participant.Scale ->
  Participant.selectedAnswer st = Some v ->
  Participant.submitAnswer st =
  Some ({| Participant.pollCode := Participant.pollCode st;
           Participant.isJoined := Participant.isJoined st;
           Participant.currentQuestion := Participant.currentQuestion st;
           Participant.selectedAnswer := Some v;
           Participant.textAnswer := Participant.textAnswer st;
           Participant.hasAnswered := true |},
        Participant.mkEffects
          [Participant.mkToast (lit "Answer Submitted!")
                               (lit "Thank you for your response")
                               Participant.Default]
          [(2000, Participant.currentQuestion st)]).
Proof.
  intros Hq Ht Hs. unfold Participant.submitAnswer. by rewrite Hq, Ht, Hs.
Qed.
End Handlers.

(** ** The claims *)







(** C3, against the claim: with the first question current, a response to
    the second question is not turned down: it is stored, and the chart of the
    second question counts it. *)
Lemma response_to_other_question_is_counted :
  currentQuestion two_questions = Some a_word_cloud
  /\ ~ rejects_stale two_questions (answer a_choice (VStr (lit "A")))
  /\ getChartData (after nextQuestion two_questions)
     = [mkChart (lit "A") 0; mkChart (lit "B") 0]
  /\ getChartData
       (after nextQuestion (receive (answer a_choice (VStr (lit "A"))) two_questions))
     = [mkChart (lit "A") 1; mkChart (lit "B") 0].
Proof.
  split_and!; [by vm_compute | | by vm_compute..].
  intros H. specialize (H a_word_cloud eq_refl).
  assert (receive (answer a_choice (VStr (lit "A"))) two_questions = two_questions)
    as E by (apply H; by vm_compute).
  apply (f_equal participantCount) in E. by vm_compute in E.
Qed.

(** C3, as the code has it: a response to any question of the presentation,
    current or not, is accepted.  It is appended to the responses stored for
    its question, the participant count grows by one, the responses stored
    for the other questions and the current question stay as they were, so
    the aggregates on display change only when the response is for the
    current question. *)
Theorem response_is_stored_for_its_question (st : state) (ev : response_row)
    (Hsub : subscribed st ev = true) :
  responses (receive ev st) !! question_id ev
  = Some (default [] (responses st !! question_id ev) ++ [response_data ev])
  /\ (forall k, k <> question_id ev -> responses (receive ev st) !! k = responses st !! k)
  /\ participantCount (receive ev st) = participantCount st + 1
  /\ currentQuestion (receive ev st) = currentQuestion st
  /\ (forall q, currentQuestion st = Some q -> id q <> question_id ev ->
        getChartData (receive ev st) = getChartData st
        /\ getWordCloudData (receive ev st) = getWordCloudData st
        /\ questionResponses (receive ev st) = questionResponses st).
Proof.
  pose proof (receive_responses ev st Hsub) as Hr.
  split_and!.
  - by rewrite Hr, push_lookup, decide_True.
  - intros k Hk. by rewrite Hr, push_lookup, decide_False.
  - by apply receive_participantCount.
  - apply receive_currentQuestion.
  - intros q Hq Hne. apply aggregates_same; [apply receive_currentQuestion|].
    intros q' Hq'. assert (q' = q) as -> by congruence.
    by rewrite Hr, push_lookup, decide_False.
Qed.

Lemma response_is_stored_for_its_question_witness :
  subscribed two_questions (answer a_choice (VStr (lit "A"))) = true
  /\ responses (receive (answer a_choice (VStr (lit "A"))) two_questions)
       !! id a_choice
     = Some ([] ++ [VStr (lit "A")]).
Proof.
  assert (subscribed two_questions (answer a_choice (VStr (lit "A"))) = true) as Hs
    by (by vm_compute).
  split; [exact Hs|].
  exact (proj1 (response_is_stored_for_its_question two_questions _ Hs)).
Defined.

(** C4: for a rating question the chart has one bar for each integer from 1
    to 10, in that order, whose value is the number of responses equal to
    that integer; after the responses 7, 3, 7 the bars are 7: 2, 3: 1 and 0
    everywhere else. *)
Theorem rating_chart_counts_one_to_ten (st : state) (q : Question)
    (Hq : currentQuestion st = Some q) (Ht : question_type q = rating) :
  getChartData st
  = (fun i => mkChart (toString i) (count_eq (VNum i) (questionResponses st)))
      <$> seqZ 1 10
  /\ questionResponses rating_session = [VNum 7; VNum 3; VNum 7]
  /\ getChartData rating_session
     = [mkChart (lit "1") 0; mkChart (lit "2") 0; mkChart (lit "3") 1;
        mkChart (lit "4") 0; mkChart (lit "5") 0; mkChart (lit "6") 0;
        mkChart (lit "7") 2; mkChart (lit "8") 0; mkChart (lit "9") 0;
        mkChart (lit "10") 0].
Proof.
  split_and!; [|by vm_compute..].
  rewrite (getChartData_rating st q Hq Ht). unfold questionResponses. by rewrite Hq.
Qed.

Lemma rating_chart_counts_one_to_ten_witness :
  currentQuestion rating_session = Some a_rating
  /\ question_type a_rating = rating
  /\ getChartData rating_session
     = (fun i => mkChart (toString i) (count_eq (VNum i) (questionResponses rating_session)))
         <$> seqZ 1 10.
Proof.
  assert (currentQuestion rating_session = Some a_rating) as Hq by (by vm_compute).
  split_and!; [exact Hq | reflexivity |].
  exact (proj1 (rating_chart_counts_one_to_ten rating_session a_rating Hq eq_refl)).
Defined.



(** C6: [nextQuestion] on the last question calls no state setter and leaves
    the state as it is, and so does [prevQuestion] on the first question;
    neither fails.  This holds for every session, so for every session with
    questions. *)
Theorem navigation_stops_at_both_ends (st : state) :
  (currentQuestionIndex st = Z.of_nat (length (questions st)) - 1 ->
   nextQuestion st = [] /\ after nextQuestion st = st)
  /\ (currentQuestionIndex st = 0 ->
      prevQuestion st = [] /\ after prevQuestion st = st).
Proof. split; [apply nextQuestion_last | apply prevQuestion_first]. Qed.

Lemma navigation_stops_at_both_ends_witness :
  questions open_session <> []
  /\ currentQuestionIndex open_session = Z.of_nat (length (questions open_session)) - 1
  /\ currentQuestionIndex open_session = 0
  /\ nextQuestion open_session = []
  /\ after nextQuestion open_session = open_session
  /\ prevQuestion open_session = []
  /\ after prevQuestion open_session = open_session.
Proof.
  destruct (navigation_stops_at_both_ends open_session) as [Hn Hp].
  split_and!; [discriminate | reflexivity | reflexivity
              | exact (proj1 (Hn eq_refl)) | exact (proj2 (Hn eq_refl))
              | exact (proj1 (Hp eq_refl)) | exact (proj2 (Hp eq_refl))].
Defined.






(** C9, against the claim: no maximum bounds the responses kept for an
    open-ended question. *)
Lemma open_ended_responses_are_not_capped :
  ~ exists max, retains_at_most max open_session.
Proof.
  intros [max H].
  specialize (H (replicate (S max) (answer an_open_ended (VStr (lit "more"))))).
  rewrite (run_questionResponses _ an_open_ended) in H by (by vm_compute).
  rewrite length_app, length_fmap, filter_all, length_replicate in H; [lia|].
  by intros e ->%elem_of_replicate_inv.
Qed.

(** C9, as the code has it: the responses shown for an open-ended question
    are the raw values in arrival order, and they are only ever appended to:
    after any notifications the list is the former list followed by the
    values received for the question, all of them. *)
Theorem open_ended_responses_in_arrival_order
    (st : state) (q : Question) (events : list response_row)
    (Hq : currentQuestion st = Some q) :
  questionResponses (run events st)
  = questionResponses st
    ++ (response_data <$> filter (fun e => question_id e = id q) events)
  /\ (length (questionResponses (run events st))
      = length (questionResponses st)
        + length (filter (fun e => question_id e = id q) events))%nat.
Proof.
  pose proof (run_questionResponses st q events Hq) as H.
  split; [exact H|]. by rewrite H, length_app, length_fmap.
Qed.

Lemma open_ended_responses_in_arrival_order_witness :
  currentQuestion open_session = Some an_open_ended
  /\ questionResponses
       (run [answer an_open_ended (VStr (lit "a"));
             answer an_open_ended (VStr (lit "b"))] open_session)
     = [] ++ [VStr (lit "a"); VStr (lit "b")].
Proof.
  assert (currentQuestion open_session = Some an_open_ended) as Hq by (by vm_compute).
  split; [exact Hq|].
  exact (proj1 (open_ended_responses_in_arrival_order open_session an_open_ended
                  [answer an_open_ended (VStr (lit "a"));
                   answer an_open_ended (VStr (lit "b"))] Hq)).
Defined.

(** C10: the participant count is the number of response records, whoever
    sent them.  Fetching sets it to the number of fetched rows, every
    notification then adds exactly one, and it equals the number of records
    held for all questions together. *)
Theorem participant_count_counts_responses
    (st : state) (data events : list response_row) :
  participantCount (fetchResponses (inr data) st) = Z.of_nat (length data)
  /\ (forall ev st', participantCount (onInsert ev st') = participantCount st' + 1)
  /\ participantCount (run events (fetchResponses (inr data) st))
     = Z.of_nat (length data)
       + Z.of_nat (length (filter (fun e => subscribed st e = true) events))
  /\ participantCount (run events (fetchResponses (inr data) st))
     = total_responses (responses (run events (fetchResponses (inr data) st))).
Proof.
  split_and!; [done | done | |].
  - by rewrite run_participantCount.
  - rewrite run_participantCount, run_total. simpl.
    by rewrite total_groupResponses.
Qed.

(** ** More of the presenter *)

Section PresenterMachine.
Implicit Types (st : state) (e : presenter_event) (events : list presenter_event).

Lemma state_eq st st' :
  currentQuestionIndex st = currentQuestionIndex st' ->
  responses st = responses st' ->
  participantCount st = participantCount st' ->
  questions st = questions st' ->
  loading st = loading st' ->
  st = st'.
Proof. destruct st, st'. simpl. by intros -> -> -> -> ->. Qed.

Lemma after_nextQuestion_index st :
  currentQuestionIndex (after nextQuestion st) =
  if currentQuestionIndex st <? Z.of_nat (length (questions st)) - 1
  then currentQuestionIndex st + 1 else currentQuestionIndex st.
Proof. unfold after, nextQuestion. by destruct (_ <? _). Qed.

Lemma after_prevQuestion_index st :
  currentQuestionIndex (after prevQuestion st) =
  if currentQuestionIndex st >? 0
  then currentQuestionIndex st - 1 else currentQuestionIndex st.
Proof. unfold after, prevQuestion. by destruct (_ >? _). Qed.

Lemma after_nextQuestion_rest st :
  responses (after nextQuestion st) = responses st
  /\ participantCount (after nextQuestion st) = participantCount st
  /\ questions (after nextQuestion st) = questions st
  /\ loading (after nextQuestion st) = loading st.
Proof. unfold after, nextQuestion. by destruct (_ <? _). Qed.

Lemma after_prevQuestion_rest st :
  responses (after prevQuestion st) = responses st
  /\ participantCount (after prevQuestion st) = participantCount st
  /\ questions (after prevQuestion st) = questions st
  /\ loading (after prevQuestion st) = loading st.
Proof. unfold after, prevQuestion. by destruct (_ >? _). Qed.

Lemma receive_loading r st : loading (receive r st) = loading st.
Proof. unfold receive. by destruct (subscribed st r). Qed.

Lemma presenter_step_questions st e : questions (presenter_step st e) = questions st.
Proof.
  destruct e as [| |r|[err|data]]; simpl; try done.
  - apply after_nextQuestion_rest.
  - apply after_prevQuestion_rest.
  - apply receive_questions.
Qed.

Lemma presenter_step_loading st e : loading (presenter_step st e) = loading st.
Proof.
  destruct e as [| |r|[err|data]]; simpl; try done.
  - apply after_nextQuestion_rest.
  - apply after_prevQuestion_rest.
  - apply receive_loading.
Qed.

(** The index stays on a question. *)
Lemma presenter_step_index st e :
  0 <= currentQuestionIndex st < Z.of_nat (length (questions st)) ->
  0 <= currentQuestionIndex (presenter_step st e)
    < Z.of_nat (length (questions (presenter_step st e))).
Proof.
  intros H. rewrite presenter_step_questions.
  destruct e as [| |r|[err|data]]; simpl; try done.
  - rewrite after_nextQuestion_index. destruct (Z.ltb_spec (currentQuestionIndex st)
      (Z.of_nat (length (questions st)) - 1)); lia.
  - rewrite after_prevQuestion_index.
    destruct (Z.gtb_spec (currentQuestionIndex st) 0); lia.
  - by rewrite receive_index.
Qed.

Lemma presenter_step_index_empty st e :
  currentQuestionIndex st = 0 -> questions st = [] ->
  currentQuestionIndex (presenter_step st e) = 0.
Proof.
  intros Hi Hq. destruct e as [| |r|[err|data]]; simpl; try done.
  - by rewrite after_nextQuestion_index, Hi, Hq.
  - by rewrite after_prevQuestion_index, Hi.
  - by rewrite receive_index.
Qed.

Lemma presenter_after_snoc result events e :
  presenter_after result (events ++ [e]) =
  presenter_step (presenter_after result events) e.
Proof. unfold presenter_after. by rewrite foldl_snoc. Qed.

Lemma presenter_after_questions result events :
  questions (presenter_after result events) =
  match result with inl _ => [] | inr data => data end.
Proof.
  induction events as [|e events IH] using rev_ind.
  - by destruct result.
  - by rewrite presenter_after_snoc, presenter_step_questions.
Qed.

Lemma presenter_after_loading result events :
  loading (presenter_after result events) = false.
Proof.
  induction events as [|e events IH] using rev_ind; [done|].
  by rewrite presenter_after_snoc, presenter_step_loading.
Qed.

Lemma presenter_after_index result events :
  let st := presenter_after result events in
  (questions st = [] /\ currentQuestionIndex st = 0)
  \/ 0 <= currentQuestionIndex st < Z.of_nat (length (questions st)).
Proof.
  induction events as [|e events IH] using rev_ind.
  - unfold presenter_after. simpl.
    destruct (match result with inl _ => [] | inr data => data end) as [|q qs];
      [by left|].
    right. simpl. lia.
  - simpl in *. rewrite presenter_after_snoc.
    destruct IH as [[Hq Hi]|IH].
    + left. split; [by rewrite presenter_step_questions|].
      by apply presenter_step_index_empty.
    + right. by apply presenter_step_index.
Qed.

Lemma currentQuestion_in_range st :
  0 <= currentQuestionIndex st < Z.of_nat (length (questions st)) ->
  exists q, currentQuestion st = Some q /\ q ∈ questions st.
Proof.
  intros H. unfold currentQuestion.
  rewrite (proj2 (Z.ltb_ge _ _)) by lia.
  destruct (lookup_lt_is_Some_2 (questions st) (Z.to_nat (currentQuestionIndex st)))
    as [q Hq]; [lia|].
  exists q. split; [done|]. by eapply list_elem_of_lookup_2.
Qed.

Lemma presenter_after_render result events :
  match result with
  | inr (q :: qs) =>
      exists q', q' ∈ q :: qs
                 /\ render (presenter_after result events) = Some (PresentationScreen q')
  | _ => render (presenter_after result events) = Some NoQuestionsScreen
  end.
Proof.
  pose proof (presenter_after_index result events) as Hi.
  pose proof (presenter_after_questions result events) as Hq.
  pose proof (presenter_after_loading result events) as Hl.
  simpl in Hi. unfold render. rewrite Hl.
  destruct result as [err|[|q qs]]; rewrite Hq; simpl; try done.
  destruct Hi as [[Hn _]|Hi]; [by rewrite Hq in Hn|].
  destruct (currentQuestion_in_range _ Hi) as (q' & Hq' & Hin).
  rewrite Hq in Hin. exists q'. by rewrite Hq'.
Qed.

Lemma next_then_prev st :
  0 <= currentQuestionIndex st < Z.of_nat (length (questions st)) - 1 ->
  after prevQuestion (after nextQuestion st) = st.
Proof.
  intros H. destruct (after_prevQuestion_rest (after nextQuestion st)) as (?&?&?&?).
  destruct (after_nextQuestion_rest st) as (?&?&?&?).
  apply state_eq; try congruence.
  rewrite after_prevQuestion_index, after_nextQuestion_index.
  rewrite (proj2 (Z.ltb_lt _ _)) by lia.
  rewrite (proj2 (Z.gtb_gt _ _)) by lia. lia.
Qed.

Lemma prev_then_next st :
  0 < currentQuestionIndex st <= Z.of_nat (length (questions st)) - 1 ->
  after nextQuestion (after prevQuestion st) = st.
Proof.
  intros H. destruct (after_nextQuestion_rest (after prevQuestion st)) as (?&?&Hq&?).
  destruct (after_prevQuestion_rest st) as (?&?&Hq'&?).
  apply state_eq; try congruence.
  rewrite after_nextQuestion_index, Hq', after_prevQuestion_index.
  rewrite (proj2 (Z.gtb_gt _ _)) by lia.
  rewrite (proj2 (Z.ltb_lt _ _)) by lia. lia.
Qed.

Lemma nextDisabled_spec st :
  currentQuestionIndex st <= Z.of_nat (length (questions st)) - 1 ->
  nextDisabled st = true <-> nextQuestion st = [].
Proof.
  intros H. unfold nextDisabled, nextQuestion.
  rewrite bool_decide_eq_true.
  destruct (Z.ltb_spec (currentQuestionIndex st) (Z.of_nat (length (questions st)) - 1));
    split; try done; lia.
Qed.

Lemma prevDisabled_spec st :
  0 <= currentQuestionIndex st ->
  prevDisabled st = true <-> prevQuestion st = [].
Proof.
  intros H. unfold prevDisabled, prevQuestion.
  rewrite bool_decide_eq_true.
  destruct (Z.gtb_spec (currentQuestionIndex st) 0); split; try done; lia.
Qed.
End PresenterMachine.

Section Replay.
Implicit Types (st : state) (data : list response_row).

Lemma run_loading data st : loading (run data st) = loading st.
Proof.
  induction data as [|r data IH] using rev_ind; [done|].
  by rewrite run_snoc, receive_loading.
Qed.

Lemma groupResponses_filter_snoc (P : response_row -> Prop)
    `{!forall r, Decision (P r)} data r :
  groupResponses (filter P (data ++ [r])) =
  if decide (P r)
  then push (groupResponses (filter P data)) (question_id r) (response_data r)
  else groupResponses (filter P data).
Proof.
  rewrite filter_app, filter_cons, filter_nil.
  case_decide; [apply groupResponses_snoc | by rewrite app_nil_r].
Qed.

Lemma run_replay data st :
  responses st = ∅ ->
  responses (run data st) =
  groupResponses (filter (fun r => subscribed st r = true) data).
Proof.
  intros He. induction data as [|r data IH] using rev_ind; [done|].
  rewrite run_snoc, groupResponses_filter_snoc.
  unfold receive. rewrite run_subscribed.
  destruct (subscribed st r) eqn:Hs.
  - rewrite decide_True by done. by rewrite onInsert_responses, IH.
  - by rewrite decide_False by done.
Qed.

Lemma groupResponses_lookup data k :
  default [] (groupResponses data !! k) =
  response_data <$> filter (fun r => question_id r = k) data.
Proof.
  induction data as [|r data IH] using rev_ind; [done|].
  rewrite groupResponses_snoc, push_lookup, filter_app, fmap_app, filter_cons, filter_nil.
  case_decide as Hk.
  - subst k. simpl. by rewrite IH.
  - by rewrite IH, app_nil_r.
Qed.

Lemma groupResponses_nonempty data k l :
  groupResponses data !! k = Some l -> l <> [].
Proof.
  revert l. induction data as [|r data IH] using rev_ind; intros l; [done|].
  rewrite groupResponses_snoc, push_lookup.
  case_decide; [|apply IH].
  intros [= <-]. by intros [_ ?]%app_eq_nil.
Qed.

Lemma groupResponses_by_question data k :
  groupResponses data !! k =
  match response_data <$> filter (fun r => question_id r = k) data with
  | [] => None
  | l => Some l
  end.
Proof.
  rewrite <-groupResponses_lookup.
  destruct (groupResponses data !! k) as [l|] eqn:E; [|done].
  apply groupResponses_nonempty in E. simpl. by destruct l.
Qed.
End Replay.

(** ** More of the aggregates *)

Section MoreCharts.
Implicit Types (st : state) (rs : list jsvalue) (ks : list jsstring).

Lemma tally_ext (c c' : jsstring -> Z) ks :
  (forall k, k ∈ ks -> c k = c' k) ->
  foldl (fun counts option => set option (c option) counts) [] ks =
  foldl (fun counts option => set option (c' option) counts) [] ks.
Proof.
  induction ks as [|k ks IH] using rev_ind; intros H; [done|].
  rewrite !foldl_snoc, IH, H; [done| |].
  - apply elem_of_app. right. left.
  - intros k' Hk'. apply H, elem_of_app. by left.
Qed.

Lemma choice_values st q e :
  currentQuestion st = Some q -> question_type q = multiple_choice ->
  e ∈ getChartData st -> value e = count_eq (VStr (name e)) (questionResponses st).
Proof.
  intros Hq Ht. rewrite (getChartData_choice _ _ Hq Ht).
  unfold questionResponses. rewrite Hq.
  intros ([k v] & -> & Hp)%list_elem_of_fmap.
  apply (proj1 (elem_of_entries _ _)) in Hp.
  by apply tally_elem_of in Hp as [_ ->].
Qed.

Lemma choice_unchanged st q v :
  currentQuestion st = Some q -> question_type q = multiple_choice ->
  v ∉ VStr <$> default [] (options q) ->
  getChartData (receive (mkRow (id q) v) st) = getChartData st.
Proof.
  intros Hq Ht Hv.
  rewrite (getChartData_choice _ q), (getChartData_choice st q);
    [|done..|by rewrite receive_currentQuestion|done].
  pose proof (receive_questionResponses st q v Hq) as Hr.
  unfold questionResponses in Hr. rewrite receive_currentQuestion, Hq in Hr.
  rewrite Hr. do 2 f_equal. apply tally_ext. intros k Hk.
  rewrite count_eq_snoc, decide_False; [lia|].
  intros ->. apply Hv. apply list_elem_of_fmap. eauto.
Qed.

Lemma rating_sum_cons r rs (scale : list Z) :
  NoDup scale ->
  sum_values ((fun i => mkChart (toString i) (count_eq (VNum i) (r :: rs))) <$> scale) =
  sum_values ((fun i => mkChart (toString i) (count_eq (VNum i) rs)) <$> scale)
  + (if decide (r ∈ VNum <$> scale) then 1 else 0).
Proof.
  induction 1 as [|i scale Hi _ IH].
  - by rewrite decide_False by (rewrite fmap_nil; apply not_elem_of_nil).
  - rewrite !fmap_cons. cbn [sum_values foldr value].
    fold (sum_values ((fun i => mkChart (toString i) (count_eq (VNum i) (r :: rs))) <$> scale)).
    fold (sum_values ((fun i => mkChart (toString i) (count_eq (VNum i) rs)) <$> scale)).
    rewrite IH, count_eq_cons.
    destruct (decide (r = VNum i)) as [->|Hne].
    + rewrite (decide_True (P := _ ∈ _ :: _)) by left.
      rewrite decide_False; [lia|].
      intros (i' & [= <-] & ?)%list_elem_of_fmap. done.
    + destruct (decide (r ∈ VNum <$> scale)) as [Hin|Hin].
      * rewrite decide_True by (by right). lia.
      * rewrite decide_False; [lia|].
        intros [?|?]%elem_of_cons; done.
Qed.

Lemma rating_sum st q :
  currentQuestion st = Some q -> question_type q = rating ->
  sum_values (getChartData st) =
  Z.of_nat (length (filter (fun r => r ∈ VNum <$> seqZ 1 10) (questionResponses st))).
Proof.
  intros Hq Ht. rewrite (getChartData_rating st q Hq Ht).
  unfold questionResponses. rewrite Hq.
  induction (responsesOf st q) as [|r rs IH]; [done|].
  rewrite rating_sum_cons by apply NoDup_seqZ. rewrite IH, filter_cons.
  case_decide; simpl; lia.
Qed.
End MoreCharts.

Section MoreWordCloud.
Implicit Types (ws : list jsvalue) (ks : list jsstring).

Lemma occurrences_count_eq k ks : occurrences k ks = count_eq (VStr k) (VStr <$> ks).
Proof.
  unfold occurrences, count_eq, strict_eq. f_equal.
  induction ks as [|k' ks IH]; [done|].
  rewrite filter_cons, fmap_cons. cbn [List.filter].
  case_decide; case_bool_decide; simplify_eq; simpl; congruence.
Qed.

Lemma sum_with_ext (f g : jsstring -> Z) ks :
  (forall k, f k = g k) -> sum_with f ks = sum_with g ks.
Proof. intros H. induction ks as [|k ks IH]; simpl; [done|]. by rewrite H, IH. Qed.

Lemma sum_counts_Permutation (l k : list word_entry) :
  l ≡ₚ k -> sum_counts l = sum_counts k.
Proof.
  induction 1 as [|x l k _ IH|x y l|l k m _ IH1 _ IH2]; simpl; lia.
Qed.

Lemma sum_counts_sublist (l k : list word_entry) :
  l `sublist_of` k -> (forall e, e ∈ k -> 0 <= count e) ->
  sum_counts l <= sum_counts k.
Proof.
  induction 1 as [|x l k _ IH|x l k _ IH]; intros Hk; simpl; [lia| |].
  - assert (sum_counts l <= sum_counts k) by (apply IH; intros; apply Hk; by right). lia.
  - assert (sum_counts l <= sum_counts k) by (apply IH; intros; apply Hk; by right).
    assert (0 <= count x) by (apply Hk; left). lia.
Qed.

Lemma sum_counts_countWords ws :
  sum_counts ((fun p => mkWord p.1 p.2) <$> countWords ws) = Z.of_nat (length ws).
Proof.
  set (ks := toPropertyKey <$> ws).
  transitivity (sum_with (fun k => occurrences k ks) (countWords ws).*1).
  { assert (forall k v, (k, v) ∈ countWords ws -> v = occurrences k ks) as Hv.
    { intros k v Hkv. apply (elem_of_get _ _ _ (countWords_NoDup ws)) in Hkv.
      rewrite countWords_get in Hkv. case_decide; [|done]. by injection Hkv as <-. }
    revert Hv. generalize (countWords ws). intros o.
    induction o as [|[k v] o IH]; intros Hv; csimpl; [done|].
    rewrite IH by (intros ???; apply Hv; by right).
    by rewrite (Hv k v) by left. }
  rewrite (sum_with_ext _ (fun k => count_eq (VStr k) (VStr <$> ks)))
    by (intros k; apply occurrences_count_eq).
  rewrite sum_with_count_eq by apply countWords_NoDup.
  rewrite filter_all; [unfold ks; by rewrite !length_fmap|].
  intros r (k & -> & Hk)%list_elem_of_fmap.
  apply list_elem_of_fmap. exists k. split; [done|]. by apply countWords_keys.
Qed.

Lemma countWords_length ws :
  length (countWords ws) = distinct (toPropertyKey <$> ws).
Proof.
  unfold distinct. rewrite <-(length_fmap fst).
  apply Permutation_length, NoDup_Permutation.
  - apply countWords_NoDup.
  - apply NoDup_remove_dups.
  - intros k. by rewrite countWords_keys, elem_of_remove_dups.
Qed.

Lemma wordCloud_full_length ws :
  length (sort (fun a b => count b - count a)
               ((fun p => mkWord p.1 p.2) <$> entries (countWords ws)))
  = distinct (toPropertyKey <$> ws).
Proof.
  by rewrite sort_Permutation, length_fmap, entries_Permutation, countWords_length.
Qed.

Lemma wordCloud_size ws :
  length (wordCloud ws) = (10 `min` distinct (toPropertyKey <$> ws))%nat.
Proof. unfold wordCloud. rewrite length_take, wordCloud_full_length. lia. Qed.

Lemma wordCloud_sum_le ws : sum_counts (wordCloud ws) <= Z.of_nat (length ws).
Proof.
  rewrite <-(sum_counts_countWords ws).
  rewrite <-(sum_counts_Permutation
               (sort (fun a b => count b - count a)
                     ((fun p => mkWord p.1 p.2) <$> entries (countWords ws)))
               ((fun p => mkWord p.1 p.2) <$> countWords ws))
    by (by rewrite sort_Permutation, entries_Permutation).
  apply sum_counts_sublist; [apply wordCloud_sublist|].
  intros e He. rewrite sort_Permutation in He.
  apply list_elem_of_fmap in He as ([k v] & -> & Hp). simpl.
  apply (proj1 (elem_of_entries _ _)) in Hp.
  apply (elem_of_get _ _ _ (countWords_NoDup ws)) in Hp.
  rewrite countWords_get in Hp. case_decide as Hk; [|done].
  injection Hp as <-. pose proof (occurrences_pos _ _ Hk). lia.
Qed.

Lemma wordCloud_sum_all ws :
  (distinct (toPropertyKey <$> ws) <= 10)%nat ->
  sum_counts (wordCloud ws) = Z.of_nat (length ws).
Proof.
  intros H. unfold wordCloud.
  rewrite take_ge by (rewrite wordCloud_full_length; lia).
  rewrite <-(sum_counts_countWords ws).
  apply sum_counts_Permutation. by rewrite sort_Permutation, entries_Permutation.
Qed.

Lemma wordCloud_count_pos ws e : e ∈ wordCloud ws -> 1 <= count e.
Proof.
  intros [Hw ->]%wordCloud_elem. pose proof (occurrences_pos _ _ Hw). lia.
Qed.
End MoreWordCloud.

(** ** More of the participant *)

Section ParticipantMachine.
Implicit Types (st : Participant.state) (w : world) (e : participant_event).

Lemma questionAt_in_range i :
  0 <= i <= 3 -> exists question, Participant.questionAt i = Some question.
Proof.
  intros H. assert (i = 0 \/ i = 1 \/ i = 2 \/ i = 3) as [->|[->|[->| ->]]] by lia;
    by eexists.
Qed.

Lemma questionAt_Some i question :
  Participant.questionAt i = Some question -> 0 <= i <= 3.
Proof.
  unfold Participant.questionAt. destruct (Z.ltb_spec i 0); [done|].
  intros Hq%lookup_lt_Some. simpl in Hq. lia.
Qed.

Lemma not_str_trim text :
  not_str (trim text) = true <-> Forall (fun c => isWhiteSpace c = true) text.
Proof.
  split.
  - intros H. apply trim_nil. by destruct (trim text).
  - intros H. by rewrite (trim_blank _ H).
Qed.

Lemma submitAnswer_answered st question :
  Participant.questionAt (Participant.currentQuestion st) = Some question ->
  answered st question ->
  Participant.submitAnswer st =
  Some ({| Participant.pollCode := Participant.pollCode st;
           Participant.isJoined := Participant.isJoined st;
           Participant.currentQuestion := Participant.currentQuestion st;
           Participant.selectedAnswer := Participant.selectedAnswer st;
           Participant.textAnswer := Participant.textAnswer st;
           Participant.hasAnswered := true |},
        Participant.mkEffects
          [Participant.mkToast (lit "Answer Submitted!")
                               (lit "Thank you for your response")
                               Participant.Default]
          [(2000, Participant.currentQuestion st)]).
Proof.
  intros Hq Ha. unfold Participant.submitAnswer, answered in *. rewrite Hq.
  destruct (Participant.type question);
    try (destruct (Participant.selectedAnswer st); done);
    (destruct (not_str (trim (Participant.textAnswer st))) eqn:E;
     [by apply not_str_trim in E | done]).
Qed.

Lemma submitAnswer_unanswered st question :
  Participant.questionAt (Participant.currentQuestion st) = Some question ->
  ~ answered st question ->
  exists t, Participant.submitAnswer st = Some (st, Participant.mkEffects [t] [])
            /\ Participant.toast_title t = lit "Answer Required"
            /\ Participant.variant t = Participant.Destructive.
Proof.
  intros Hq Ha. unfold Participant.submitAnswer, answered in *. rewrite Hq.
  destruct (Participant.type question).
  - destruct (Participant.selectedAnswer st); [by destruct Ha | by eexists].
  - destruct (Participant.selectedAnswer st); [by destruct Ha | by eexists].
  - destruct (not_str (trim (Participant.textAnswer st))) eqn:E; [by eexists|].
    destruct Ha. intros H%not_str_trim. congruence.
  - destruct (not_str (trim (Participant.textAnswer st))) eqn:E; [by eexists|].
    destruct Ha. intros H%not_str_trim. congruence.
Qed.

Lemma answered_dec st question : answered st question \/ ~ answered st question.
Proof.
  unfold answered. destruct (Participant.type question).
  - destruct (Participant.selectedAnswer st); [left; done | right; auto].
  - destruct (Participant.selectedAnswer st); [left; done | right; auto].
  - destruct (not_str (trim (Participant.textAnswer st))) eqn:E.
    + right. intros H. apply H. by apply not_str_trim.
    + left. intros H%not_str_trim. congruence.
  - destruct (not_str (trim (Participant.textAnswer st))) eqn:E.
    + right. intros H. apply H. by apply not_str_trim.
    + left. intros H%not_str_trim. congruence.
Qed.

Lemma onTimeout_index captured st :
  Participant.currentQuestion (Participant.onTimeout captured st) =
  if captured <? 3 then captured + 1 else Participant.currentQuestion st.
Proof.
  unfold Participant.onTimeout.
  change (Z.of_nat (length Participant.mockQuestions) - 1) with 3.
  by destruct (captured <? 3).
Qed.

(** One event keeps the invariant, and the index does not go back. *)
Lemma joinPoll_index st :
  Participant.currentQuestion (Participant.joinPoll st).1 = Participant.currentQuestion st.
Proof. unfold Participant.joinPoll. by destruct (_ <? 4). Qed.

Lemma participant_step_inv w e :
  participant_inv w ->
  exists w', participant_step w e = Some w'
             /\ participant_inv w'
             /\ Participant.currentQuestion (ui w)
                <= Participant.currentQuestion (ui w').
Proof.
  intros Hinv.
  assert (exists w', Some w = Some w' /\ participant_inv w'
                     /\ Participant.currentQuestion (ui w)
                        <= Participant.currentQuestion (ui w')) as Hstay
    by (exists w; split_and!; [done..|lia]).
  destruct w as [st pend]. destruct Hinv as [Hi Hp]. simpl in Hi, Hp.
  unfold participant_step, Participant.controls. cbn [ui pending].
  destruct (Participant.isJoined st) eqn:Hj; cbn [negb].
  - destruct (Participant.hasAnswered st) eqn:Ha.
    + (* the answer is in: only a timer does something *)
      destruct e; try exact Hstay.
      destruct Hp as [->|(-> & _ & _)]; [exact Hstay|].
      destruct i as [|i]; [|exact Hstay]. cbn [lookup list_lookup delete list_delete].
      eexists. split; [done|]. unfold participant_inv. cbn [ui pending].
      rewrite onTimeout_index.
      destruct (Z.ltb_spec (Participant.currentQuestion st) 3);
        (split; [split; [lia | by left] | lia]).
    + (* the question is on screen *)
      destruct Hp as [->|(_ & ? & _)]; [|congruence].
      destruct (questionAt_in_range _ Hi) as [question Hq]. rewrite Hq.
      destruct e; try exact Hstay;
        try (case_bool_decide; [|exact Hstay]; eexists; split; [done|];
             split; [split; [exact Hi | by left] | cbn; lia]).
      { case_bool_decide; [|exact Hstay]. eexists. split; [done|].
        split; [split; [|by left] | ]; cbn [ui pending]; rewrite joinPoll_index; lia. }
      case_bool_decide as Hc; [|exact Hstay].
      destruct (answered_dec st question) as [Hans|Hans].
      * rewrite (submitAnswer_answered st question Hq Hans).
        eexists. split; [done|]. split; [|cbn; lia].
        split; [exact Hi|]. right. cbn. by rewrite Hj.
      * destruct (submitAnswer_unanswered st question Hq Hans) as (t & -> & _).
        exact Hstay.
  - (* the join form *)
    destruct Hp as [->|(_ & _ & ?)]; [|congruence].
    destruct e; try exact Hstay;
      try (case_bool_decide; [|exact Hstay]; eexists; split; [done|];
           split; [split; [exact Hi | by left] | cbn; lia]).
    case_bool_decide; [|exact Hstay]. eexists. split; [done|].
    split; [split; [|by left] | ]; cbn [ui pending]; rewrite joinPoll_index; lia.
Qed.

Lemma participant_steps_inv events w :
  participant_inv w ->
  exists w', participant_steps w events = Some w'
             /\ participant_inv w'
             /\ Participant.currentQuestion (ui w)
                <= Participant.currentQuestion (ui w').
Proof.
  revert w. induction events as [|e events IH]; intros w Hw; simpl.
  - exists w. split_and!; [done..|lia].
  - destruct (participant_step_inv w e Hw) as (w1 & -> & Hw1 & Hle).
    destruct (IH w1 Hw1) as (w2 & -> & Hw2 & Hle').
    exists w2. split_and!; [done..|lia].
Qed.

Lemma participant_steps_app events events' w :
  participant_steps w (events ++ events') =
  match participant_steps w events with
  | None => None
  | Some w' => participant_steps w' events'
  end.
Proof.
  revert w. induction events as [|e events IH]; intros w; simpl; [done|].
  destruct (participant_step w e); [apply IH | done].
Qed.

Lemma participant_start_inv : participant_inv participant_start.
Proof. split; simpl; [lia | by left]. Qed.
End ParticipantMachine.

(** ** The creator's form *)

Section OptionsBox.
Implicit Types (s t : jsstring) (a : list jsstring).

Lemma split_cons_inv sep s : exists line lines, Creator.split sep s = line :: lines.
Proof.
  induction s as [|c s (line & lines & IH)]; simpl; [by eexists _, _|].
  case_bool_decide; [by eexists _, _|]. rewrite IH. by eexists _, _.
Qed.

Lemma split_app sep s t :
  Creator.split sep (s ++ sep :: t) = Creator.split sep s ++ Creator.split sep t.
Proof.
  induction s as [|c s IH]; simpl.
  - by rewrite bool_decide_eq_true_2.
  - case_bool_decide; [by rewrite IH|].
    rewrite IH. by destruct (split_cons_inv sep s) as (line & lines & ->).
Qed.

Lemma split_line sep s : sep ∉ s -> Creator.split sep s = [s].
Proof.
  induction s as [|c s IH]; simpl; [done|].
  intros [Hc Hs]%not_elem_of_cons.
  rewrite bool_decide_eq_false_2 by congruence. by rewrite IH.
Qed.

Lemma split_lines sep s line : line ∈ Creator.split sep s -> sep ∉ line.
Proof.
  revert line. induction s as [|c s IH]; intros line; simpl.
  - intros ->%list_elem_of_singleton. apply not_elem_of_nil.
  - case_bool_decide as Hc.
    + intros [-> | ?]%elem_of_cons; [apply not_elem_of_nil | auto].
    + destruct (split_cons_inv sep s) as (l & ls & E). rewrite E in *.
      intros [-> | ?]%elem_of_cons.
      * apply not_elem_of_cons. split; [congruence|]. apply IH. left.
      * apply IH. by right.
Qed.

Lemma split_join sep a :
  a <> [] -> (forall line, line ∈ a -> sep ∉ line) ->
  Creator.split sep (Creator.join sep a) = a.
Proof.
  induction a as [|x a IH]; [done|]. intros _ Ha.
  destruct a as [|y a]; simpl.
  - apply split_line, Ha. left.
  - rewrite split_app, split_line by (apply Ha; left).
    simpl. f_equal. apply IH; [done|]. intros line Hl. apply Ha. by right.
Qed.

Lemma parseOptions_app s t :
  Creator.parseOptions (s ++ 10%N :: t) =
  Creator.parseOptions s ++ Creator.parseOptions t.
Proof. unfold Creator.parseOptions. by rewrite split_app, filter_app. Qed.

Lemma parseOptions_nil : Creator.parseOptions [] = [].
Proof. done. Qed.

Lemma parseOptions_lines s o : o ∈ Creator.parseOptions s -> option_line o.
Proof.
  unfold Creator.parseOptions. intros [Ht Ho]%list_elem_of_filter. split.
  - by destruct (trim o).
  - by eapply split_lines.
Qed.

Lemma parseOptions_join a :
  (forall o, o ∈ a -> option_line o) ->
  Creator.parseOptions (Creator.join 10 a) = a.
Proof.
  intros Ha. destruct (decide (a = [])) as [->|Hne]; [done|].
  unfold Creator.parseOptions. rewrite split_join; [|done|by intros o [_ ?]%Ha].
  apply filter_all. intros o [Ht _]%Ha. by destruct (trim o).
Qed.
End OptionsBox.

Section CreatorMachine.
Implicit Types (st : Creator.state) (a : creator_action).

Lemma addQuestion_cases now st :
  (exists c text type,
      Creator.p_question_text (Creator.newQuestion st) = Some (c :: text)
      /\ Creator.p_type (Creator.newQuestion st) = Some type
      /\ Creator.questions (Creator.addQuestion now st).1 =
         Creator.questions st
         ++ [Creator.mkQuestion
               (toString now) type (c :: text)
               (match type with
                | multiple_choice =>
                    Some (default [] (Creator.p_options (Creator.newQuestion st)))
                | _ => None
                end)
               (Z.of_nat (length (Creator.questions st)))]
      /\ Creator.newQuestion (Creator.addQuestion now st).1 = Creator.empty
      /\ Participant.variant <$> (Creator.addQuestion now st).2
         = [Participant.Default])
  \/ ((Creator.p_question_text (Creator.newQuestion st) = None
       \/ Creator.p_question_text (Creator.newQuestion st) = Some []
       \/ Creator.p_type (Creator.newQuestion st) = None)
      /\ (Creator.addQuestion now st).1 = st
      /\ Participant.variant <$> (Creator.addQuestion now st).2
         = [Participant.Destructive]).
Proof.
  unfold Creator.addQuestion.
  destruct (Creator.p_question_text (Creator.newQuestion st)) as [[|c text]|];
    destruct (Creator.p_type (Creator.newQuestion st)) as [type|];
    try (right; split_and!; [|done..]; auto; fail).
  left. by eexists _, _, _.
Qed.

Lemma creator_step_inv st a : creator_inv st -> creator_inv (creator_step st a).
Proof.
  intros (Hq & Ho & Hi). destruct a as [value|value|value|now|id']; simpl.
  - done.
  - done.
  - split_and!; [done| |done]. simpl. intros a o [= <-]. apply parseOptions_lines.
  - destruct (addQuestion_cases now st)
      as [(c & text & type & Ht & Hty & Hqs & Hn & _)|(_ & -> & _)];
      [|done].
    split_and!.
    + rewrite Hqs. intros q [Hin | ->%list_elem_of_singleton]%elem_of_app; [auto|].
      split_and!; simpl; [done| |].
      * destruct type; split; try done; by intros [? ?].
      * intros a o Ha Hin. destruct type; simplify_eq.
        destruct (Creator.p_options (Creator.newQuestion st)) as [a|] eqn:E;
          simpl in Hin; [by eapply Ho | by apply elem_of_nil in Hin].
    + rewrite Hn. by intros a o.
    + rewrite Hqs. intros i q Hl. apply lookup_app_Some in Hl as [Hl|[Hlen Hl]]; [auto|].
      apply list_lookup_singleton_Some in Hl as [Hz <-]. simpl. lia.
  - split_and!.
    + intros q [_ Hin]%list_elem_of_filter. auto.
    + done.
    + simpl. intros i q Hl.
      assert (exists j, Creator.questions st !! j = Some q /\ (i <= j)%nat)
        as (j & Hj & Hij).
      { clear -Hl. revert i Hl.
        induction (Creator.questions st) as [|q' qs IH]; intros i Hl; [done|].
        rewrite filter_cons in Hl. case_decide.
        - destruct i as [|i]; simpl in Hl.
          + exists 0%nat. split; [done | lia].
          + destruct (IH i Hl) as (j & ? & ?). exists (S j). split; [done | lia].
        - destruct (IH i Hl) as (j & ? & ?). exists (S j). split; [done | lia]. }
      specialize (Hi j q Hj). lia.
Qed.

Lemma creator_initial_inv : creator_inv Creator.initial.
Proof.
  split_and!; simpl.
  - by intros q ?%elem_of_nil.
  - by intros a o.
  - by intros i q.
Qed.

Lemma creator_after_snoc actions a :
  creator_after (actions ++ [a]) = creator_step (creator_after actions) a.
Proof. unfold creator_after. by rewrite foldl_snoc. Qed.

Lemma creator_after_inv actions : creator_inv (creator_after actions).
Proof.
  induction actions as [|a actions IH] using rev_ind; [apply creator_initial_inv|].
  rewrite creator_after_snoc. by apply creator_step_inv.
Qed.

(** Without removals the positions are the order indices. *)
Lemma creator_after_positions actions i q :
  adds_only actions ->
  Creator.questions (creator_after actions) !! i = Some q ->
  Creator.order_index q = Z.of_nat i.
Proof.
  revert i q. induction actions as [|a actions IH] using rev_ind; intros i q Ha; [done|].
  assert (adds_only actions) as Ha'.
  { intros id' Hin. apply (Ha id'). apply elem_of_app. by left. }
  rewrite creator_after_snoc.
  destruct a as [value|value|value|now|id']; simpl; try by apply IH.
  - destruct (addQuestion_cases now (creator_after actions))
      as [(c & text & type & _ & _ & -> & _)|(_ & -> & _)]; [|by apply IH].
    intros Hl. apply lookup_app_Some in Hl as [Hl|[Hlen Hl]]; [by apply IH|].
    apply list_lookup_singleton_Some in Hl as [Hz <-]. simpl. lia.
  - exfalso. apply (Ha id'). apply elem_of_app. right. left.
Qed.

Lemma removeQuestion_fresh now st :
  (forall q, q ∈ Creator.questions st -> Creator.id q <> toString now) ->
  Creator.questions (Creator.removeQuestion (toString now) (Creator.addQuestion now st).1)
  = Creator.questions st.
Proof.
  intros Hfresh. unfold Creator.removeQuestion. simpl.
  destruct (addQuestion_cases now st)
    as [(c & text & type & _ & _ & -> & _)|(_ & -> & _)].
  - rewrite filter_app, filter_cons, filter_nil, decide_False by (simpl; auto).
    rewrite app_nil_r. by apply filter_all.
  - by apply filter_all.
Qed.
End CreatorMachine.

Section StartPresentation.
Context (stringify : list jsstring -> jsstring).

Lemma startPresentation_outcome user code inserted questionsError st :
  let r := Creator.startPresentation stringify user code inserted questionsError st in
  (Creator.isPresenting r.1.1 = true <->
   Creator.isPresenting st = true
   \/ (Creator.questions st <> [] /\ is_Some user
       /\ (exists c p, code = inr c /\ inserted = inr p
                       /\ Creator.pollCode r.1.1 = c
                       /\ Creator.presentationId r.1.1 = Creator.row_id p)
       /\ questionsError = None))
  /\ (r.2 = [] <-> Creator.questions st = [] \/ user = None)
  /\ (r.2 <> [] -> Creator.loading r.1.1 = false)
  /\ Creator.questions r.1.1 = Creator.questions st.
Proof.
  unfold Creator.startPresentation.
  case_bool_decide as Hn.
  { apply length_zero_iff_nil in Hn. simpl. split_and!; try done.
    - split; [auto|]. intros [?|(? & _)]; done.
    - split; auto. }
  assert (Creator.questions st <> []) as Hq by (by intros ?%length_zero_iff_nil).
  destruct user as [user|]; simpl.
  2:{ split_and!; try done.
      - split; [auto|]. intros [?|(_ & [? ?] & _)]; done.
      - split; auto. }
  destruct code as [e|c]; simpl.
  { split_and!; try done.
    - split; [auto|]. intros [?|(_ & _ & (? & ? & ? & _) & _)]; done.
    - split; [done|]. by intros [?|?]. }
  destruct inserted as [e|p]; simpl.
  { split_and!; try done.
    - split; [auto|]. intros [?|(_ & _ & (? & ? & _ & ? & _) & _)]; done.
    - split; [done|]. by intros [?|?]. }
  destruct questionsError as [e|]; simpl.
  { split_and!; try done.
    - split; [auto|]. intros [?|(_ & _ & _ & ?)]; done.
    - split; [done|]. by intros [?|?]. }
  split_and!; try done.
  - split; [|done]. intros _. right. split_and!; [done..| |done].
    by eexists _, _.
  - split; [done|]. by intros [?|?].
Qed.

(** When the questions cannot be inserted, the presentation row is already
    in the store, active, and no request follows. *)
Lemma startPresentation_questions_fail user c p e st :
  Creator.questions st <> [] ->
  Creator.startPresentation stringify (Some user) (inr c) (inr p) (Some e) st =
  (Creator.setLoading false st, [Creator.failed e],
   [Creator.GenerateAccessCode;
    Creator.InsertPresentation
      (match Creator.presentationTitle st with
       | [] => lit "Untitled Presentation"
       | t => t
       end) (Creator.user_id user) c true;
    Creator.InsertQuestions (Creator.questionsToInsert stringify p (Creator.questions st))]).
Proof.
  intros Hq. unfold Creator.startPresentation.
  rewrite bool_decide_eq_false_2; [done|]. by intros ?%length_zero_iff_nil.
Qed.
End StartPresentation.

(** ** Further properties of the code *)

(** X1: a mounted presenter never reads an undefined question.  Once the
    questions query has answered, whatever is clicked, received or fetched
    afterwards, the component renders: the "No questions" screen when the
    query failed or returned nothing, otherwise the screen of one of the
    questions. *)
Theorem presenter_always_renders
    (result : error + list Question) (events : list presenter_event) :
  match result with
  | inr (q :: qs) =>
      exists q', q' ∈ q :: qs
                 /\ render (presenter_after result events) = Some (PresentationScreen q')
  | _ => render (presenter_after result events) = Some NoQuestionsScreen
  end.
Proof. apply presenter_after_render. Qed.



(** X3: on a state whose index is on a question, the Next button is disabled
    exactly when [nextQuestion] would call no setter, and the Previous button
    exactly when [prevQuestion] would call none. *)
Theorem buttons_are_disabled_when_idle (st : state)
    (Hvalid : 0 <= currentQuestionIndex st <= Z.of_nat (length (questions st)) - 1) :
  (nextDisabled st = true <-> nextQuestion st = [])
  /\ (prevDisabled st = true <-> prevQuestion st = []).
Proof. split; [apply nextDisabled_spec | apply prevDisabled_spec]; lia. Qed.

Lemma buttons_are_disabled_when_idle_witness :
  0 <= currentQuestionIndex two_questions
    <= Z.of_nat (length (questions two_questions)) - 1
  /\ prevDisabled two_questions = true
  /\ prevQuestion two_questions = [].
Proof.
  assert (0 <= currentQuestionIndex two_questions
            <= Z.of_nat (length (questions two_questions)) - 1) as Hv
    by (vm_compute; split; discriminate).
  refine (conj Hv (conj eq_refl _)).
  exact (proj1 (proj2 (buttons_are_disabled_when_idle two_questions Hv)) eq_refl).
Defined.

(** X4: for a presenter that holds no responses yet, receiving rows one by
    one leaves exactly the state that fetching the delivered rows (those for
    questions of the presentation) at once would leave. *)
Theorem notifications_replay_as_a_fetch (st : state) (data : list response_row)
    (Hnone : responses st = ∅) (Hzero : participantCount st = 0) :
  run data st
  = fetchResponses (inr (filter (fun r => subscribed st r = true) data)) st.
Proof.
  apply state_eq; simpl.
  - apply run_index.
  - by apply run_replay.
  - rewrite run_participantCount, Hzero. lia.
  - apply run_questions.
  - apply run_loading.
Qed.

Lemma notifications_replay_as_a_fetch_witness :
  responses two_questions = ∅
  /\ participantCount two_questions = 0
  /\ run [answer a_choice (VStr (lit "A")); mkRow (lit "other") (VNum 1)] two_questions
     = fetchResponses (inr [answer a_choice (VStr (lit "A"))]) two_questions.
Proof.
  split_and!; [reflexivity | reflexivity |].
  exact (notifications_replay_as_a_fetch two_questions
           [answer a_choice (VStr (lit "A")); mkRow (lit "other") (VNum 1)]
           eq_refl eq_refl).
Defined.

(** X5: [fetchResponses] groups the fetched rows by question: a question
    with no row has no entry, and a question with rows has their values in
    the order of the rows. *)
Theorem fetched_rows_are_grouped_by_question
    (data : list response_row) (st : state) (k : list N) :
  responses (fetchResponses (inr data) st) !! k
  = match response_data <$> filter (fun r => question_id r = k) data with
    | [] => None
    | l => Some l
    end.
Proof. apply groupResponses_by_question. Qed.





(** X8: the bars of a rating chart add up to the number of stored responses
    that are one of the integers 1 to 10; every other stored value is left
    out of the chart. *)
Theorem rating_chart_sums_the_scale (st : state) (q : Question)
    (Hq : currentQuestion st = Some q) (Ht : question_type q = rating) :
  sum_values (getChartData st)
  = Z.of_nat (length (filter (fun r => r ∈ VNum <$> seqZ 1 10) (questionResponses st))).
Proof. by apply (rating_sum st q). Qed.

Lemma rating_chart_sums_the_scale_witness :
  currentQuestion rating_session = Some a_rating
  /\ question_type a_rating = rating
  /\ sum_values (getChartData (receive (answer a_rating (VNum 11)) rating_session)) = 3.
Proof.
  assert (currentQuestion (receive (answer a_rating (VNum 11)) rating_session)
          = Some a_rating) as Hq by (by vm_compute).
  split_and!; [by vm_compute | reflexivity |].
  rewrite (rating_chart_sums_the_scale _ a_rating Hq eq_refl). by vm_compute.
Defined.

Lemma getWordCloudData_eq (st : state) :
  getWordCloudData st = wordCloud (questionResponses st).
Proof.
  unfold getWordCloudData, questionResponses. by destruct (currentQuestion st).
Qed.






(** X12: every question in the creator's list is well formed, whatever the
    sequence of edits, additions and removals: its text is not empty, it has
    an option list exactly when it is multiple choice, and each of its
    options is a single line that is not blank. *)
Theorem creator_questions_are_well_formed
    (actions : list creator_action) (q : Creator.Question)
    (Hq : q ∈ Creator.questions (creator_after actions)) :
  well_formed q.
Proof. by apply (creator_after_inv actions). Qed.

Lemma creator_questions_are_well_formed_witness :
  Creator.mkQuestion (lit "1700000000000") multiple_choice
                     (lit "Favourite language?") (Some [lit "A"; lit "B"]) 0
    ∈ Creator.questions (creator_after sample_actions)
  /\ well_formed
       (Creator.mkQuestion (lit "1700000000000") multiple_choice
                           (lit "Favourite language?") (Some [lit "A"; lit "B"]) 0).
Proof.
  assert (Creator.mkQuestion (lit "1700000000000") multiple_choice
                             (lit "Favourite language?") (Some [lit "A"; lit "B"]) 0
            ∈ Creator.questions (creator_after sample_actions)) as Hq
    by (vm_compute; left).
  split; [exact Hq|].
  exact (creator_questions_are_well_formed sample_actions _ Hq).
Defined.

(** X13: [order_index] against the position in the list.  A question's
    [order_index] is never below its position, and as long as nothing has
    been removed it is the position. *)
Theorem order_index_against_position
    (actions : list creator_action) (i : nat) (q : Creator.Question)
    (Hq : Creator.questions (creator_after actions) !! i = Some q) :
  Z.of_nat i <= Creator.order_index q
  /\ (adds_only actions -> Creator.order_index q = Z.of_nat i).
Proof.
  split.
  - by apply (creator_after_inv actions).
  - intros Ha. by apply (creator_after_positions actions).
Qed.

Lemma order_index_against_position_witness :
  Creator.questions (creator_after sample_actions) !! 0%nat
  = Some (Creator.mkQuestion (lit "1700000000000") multiple_choice
                             (lit "Favourite language?") (Some [lit "A"; lit "B"]) 0)
  /\ adds_only sample_actions
  /\ Creator.order_index
       (Creator.mkQuestion (lit "1700000000000") multiple_choice
                           (lit "Favourite language?") (Some [lit "A"; lit "B"]) 0)
     = Z.of_nat 0.
Proof.
  assert (Creator.questions (creator_after sample_actions) !! 0%nat
          = Some (Creator.mkQuestion (lit "1700000000000") multiple_choice
                    (lit "Favourite language?") (Some [lit "A"; lit "B"]) 0)) as Hq
    by (by vm_compute).
  assert (adds_only sample_actions) as Ha.
  { intros id' H. unfold sample_actions in H.
    repeat (apply elem_of_cons in H as [H|H]; [discriminate|]).
    by apply elem_of_nil in H. }
  split_and!; [exact Hq | exact Ha |].
  exact (proj2 (order_index_against_position sample_actions 0 _ Hq) Ha).
Defined.

(** X14: the options box reads back what it shows.  Parsing the text that
    the box shows for a list of options (each a single line that is not
    blank) gives the list again, and whatever is typed, the parsed options
    are single lines that are not blank. *)
Theorem options_box_round_trip (a : list (list N))
    (Ha : forall o, o ∈ a -> option_line o) :
  Creator.parseOptions (Creator.join 10 a) = a
  /\ (forall value o, o ∈ Creator.parseOptions value -> option_line o).
Proof. split; [by apply parseOptions_join | apply parseOptions_lines]. Qed.

Lemma options_box_round_trip_witness :
  (forall o, o ∈ [lit "A"; lit "B"] -> option_line o)
  /\ Creator.parseOptions (Creator.join 10 [lit "A"; lit "B"]) = [lit "A"; lit "B"].
Proof.
  assert (forall o, o ∈ [lit "A"; lit "B"] -> option_line o) as Ha.
  { intros o H.
    repeat (apply elem_of_cons in H as [->|H];
            [split; [by vm_compute | vm_compute; intros H;
                     repeat (apply elem_of_cons in H as [H|H]; [discriminate|]);
                     by apply elem_of_nil in H]|]).
    by apply elem_of_nil in H. }
  split; [exact Ha|].
  exact (proj1 (options_box_round_trip [lit "A"; lit "B"] Ha)).
Defined.

Lemma parseOptions_trailing_line_feed (value : list N) :
  Creator.parseOptions (value ++ [10%N]) = Creator.parseOptions value.
Proof. by rewrite parseOptions_app, parseOptions_nil, app_nil_r. Qed.

(** X15: a line feed typed at the end of the options box is lost.  Parsing
    drops a trailing line feed, so when the form holds a list of options,
    typing Enter after the text on show sets the state to what it was and the
    box shows the same text again. *)
Theorem enter_at_the_end_of_the_options_is_lost
    (actions : list creator_action) (a : list (list N))
    (Ho : Creator.p_options (Creator.newQuestion (creator_after actions)) = Some a) :
  Creator.onOptionsChange
    (Creator.optionsText (Creator.newQuestion (creator_after actions)) ++ [10%N])
    (creator_after actions)
  = creator_after actions
  /\ (forall value,
        Creator.parseOptions (value ++ [10%N]) = Creator.parseOptions value).
Proof.
  split; [|apply parseOptions_trailing_line_feed].
  destruct (creator_after_inv actions) as (_ & Hvalid & _).
  unfold Creator.onOptionsChange, Creator.setNewQuestion, Creator.optionsText.
  rewrite Ho, parseOptions_trailing_line_feed, parseOptions_join by eauto.
  destruct (creator_after actions) as [? ? [? ? ? ? ?] ? ? ? ?].
  simpl in *. by subst.
Qed.

Lemma enter_at_the_end_of_the_options_is_lost_witness :
  Creator.p_options (Creator.newQuestion (creator_after sample_actions))
  = Some [lit "C"]
  /\ Creator.onOptionsChange (lit "C" ++ [10%N]) (creator_after sample_actions)
     = creator_after sample_actions.
Proof.
  split; [reflexivity|].
  exact (proj1 (enter_at_the_end_of_the_options_is_lost sample_actions [lit "C"] eq_refl)).
Defined.



(** X17: a presentation starts only when every request succeeds.
    [isPresenting] becomes true exactly when there are questions, a user, and
    the access code, the presentation and the questions all went through, and
    then the code and the presentation id are the ones the store returned.
    No request is sent without questions or without a user; once one is
    sent, [loading] ends false; the questions in the form are never changed.
    When only the questions fail, the presentation row has already been
    inserted as active and no request follows. *)
Theorem presentation_starts_on_full_success
    (stringify : list (list N) -> list N) (user : option Creator.User)
    (code : error + list N) (inserted : error + Creator.presentation_row)
    (questionsError : option error) (st : Creator.state) :
  let r := Creator.startPresentation stringify user code inserted questionsError st in
  (Creator.isPresenting r.1.1 = true <->
   Creator.isPresenting st = true
   \/ (Creator.questions st <> [] /\ is_Some user
       /\ (exists c p, code = inr c /\ inserted = inr p
                       /\ Creator.pollCode r.1.1 = c
                       /\ Creator.presentationId r.1.1 = Creator.row_id p)
       /\ questionsError = None))
  /\ (r.2 = [] <-> Creator.questions st = [] \/ user = None)
  /\ (r.2 <> [] -> Creator.loading r.1.1 = false)
  /\ Creator.questions r.1.1 = Creator.questions st
  /\ (forall u c p e,
        Creator.questions st <> [] -> user = Some u -> code = inr c ->
        inserted = inr p -> questionsError = Some e ->
        Creator.isPresenting r.1.1 = Creator.isPresenting st
        /\ r.2 = [Creator.GenerateAccessCode;
                  Creator.InsertPresentation
                    (match Creator.presentationTitle st with
                     | [] => lit "Untitled Presentation"
                     | t => t
                     end) (Creator.user_id u) c true;
                  Creator.InsertQuestions
                    (Creator.questionsToInsert stringify p (Creator.questions st))]).
Proof.
  intros r.
  destruct (startPresentation_outcome stringify user code inserted questionsError st)
    as (H1 & H2 & H3 & H4).
  split_and!; [exact H1 | exact H2 | exact H3 | exact H4 |].
  intros u c p e Hq -> -> -> ->. subst r.
  by rewrite startPresentation_questions_fail.
Qed.

Lemma presentation_starts_on_full_success_witness :
  Creator.questions (creator_after sample_actions) <> []
  /\ Creator.isPresenting
       (Creator.startPresentation (fun _ => []) (Some (Creator.mkUser (lit "u")))
          (inr (lit "ABCD"))
          (inr (Creator.mkPresentation (lit "p") [] (lit "u") (lit "ABCD") true))
          None (creator_after sample_actions)).1.1
     = true.
Proof.
  split; [discriminate|].
  apply (proj1 (presentation_starts_on_full_success (fun _ => [])
                  (Some (Creator.mkUser (lit "u"))) (inr (lit "ABCD"))
                  (inr (Creator.mkPresentation (lit "p") [] (lit "u") (lit "ABCD") true))
                  None (creator_after sample_actions))).
  right. split_and!; [discriminate | by eexists | by eexists _, _ | reflexivity].
Defined.
